(** * starstruct: field-name generation, flattening and table assembly

    A shallow embedding of [pkg/common/starstruct/struct.go].  Go values seen
    through [reflect] are an inductive type [value]; the flat field map
    [map[string]string] is a [gmap string string]; functions that can fail
    return a [result], which separates a returned [error] from a run-time
    panic.  The recursive walkers carry a fuel argument, and the exported
    entry points supply a fuel computed from the height of their input. *)

From Stdlib Require Import ZArith Ascii String List Lia Bool Permutation Sorted.
From stdpp Require Import gmap strings list fin_maps.

Open Scope string_scope.
Open Scope list_scope.
Set Warnings "-register-all,-clear-no-such-hyp".

(** ** Outcomes of a call *)

Inductive result (A : Type) : Type :=
| Ok (a : A)
| Err (msg : string)
| Panic (msg : string)
| OutOfFuel.

Arguments Ok {A} a.
Arguments Err {A} msg.
Arguments Panic {A} msg.
Arguments OutOfFuel {A}.

Definition bind {A B} (r : result A) (k : A -> result B) : result B :=
  match r with
  | Ok a => k a
  | Err e => Err e
  | Panic e => Panic e
  | OutOfFuel => OutOfFuel
  end.

#[global] Instance result_bind : MBind result := fun A B k r => bind r k.
#[global] Instance result_ret : MRet result := fun A a => Ok a.

(** [r1 ⊑ r2]: [r2] is [r1] computed with at least as much fuel. *)
Definition res_le {A} (r1 r2 : result A) : Prop := r1 = OutOfFuel \/ r1 = r2.

(** ** The string library functions the package calls *)

Module GoStrings.

(** Characters as their byte codes. *)
Definition code (c : ascii) : nat := nat_of_ascii c.

Definition is_upper (c : ascii) : bool := (65 <=? code c)%nat && (code c <=? 90)%nat.
Definition is_lower (c : ascii) : bool := (97 <=? code c)%nat && (code c <=? 122)%nat.
Definition is_digit (c : ascii) : bool := (48 <=? code c)%nat && (code c <=? 57)%nat.
Definition is_alpha (c : ascii) : bool := is_upper c || is_lower c.

Definition to_lower (c : ascii) : ascii :=
if is_upper c then ascii_of_nat (code c + 32) else c.
Definition to_upper (c : ascii) : ascii :=
if is_lower c then ascii_of_nat (code c - 32) else c.

(** [strings.HasPrefix(s, p)]. *)
Definition HasPrefix (s p : string) : bool := String.prefix p s.

(** [strings.TrimPrefix(s, p)]. *)
Definition TrimPrefix (s p : string) : string :=
if HasPrefix s p
then String.substring (String.length p) (String.length s - String.length p) s
else s.

(** [strings.Contains(s, sub)]. *)
Definition Contains (s sub : string) : bool :=
match String.index 0 sub s with
| Some _ => true
| None => false
end.

(** [strings.ReplaceAll(s, " ", "")]: every space is dropped. *)
Fixpoint RemoveSpaces (s : string) : string :=
match s with
| EmptyString => EmptyString
| String c r => if Ascii.eqb c " " then RemoveSpaces r else String c (RemoveSpaces r)
end.

(** The text before the first occurrence of the byte [sep]
  ([strings.Split(s, sep)[0]] for a one-byte separator). *)
Fixpoint before (sep : ascii) (s : string) : string :=
match s with
| EmptyString => EmptyString
| String c r => if Ascii.eqb c sep then EmptyString else String c (before sep r)
end.

(** The text after the first occurrence of [sep], when there is one. *)
Fixpoint after (sep : ascii) (s : string) : option string :=
match s with
| EmptyString => None
| String c r => if Ascii.eqb c sep then Some r else after sep r
end.

(** [strings.SplitN(s, ".", 2)]: one part when [s] has no dot, otherwise the
  text before the first dot and everything after it. *)
Definition SplitN2 (s : string) : list string :=
match after "." s with
| None => [s]
| Some r => [before "." s; r]
end.

(** Decimal digits of a natural number, most significant first. *)
Fixpoint digits_fuel (fuel n : nat) (acc : string) : string :=
match fuel with
| O => acc
| S f =>
    let acc' := String (ascii_of_nat (48 + n mod 10)) acc in
    if (n / 10 =? 0)%nat then acc' else digits_fuel f (n / 10) acc'
end.

Definition digits (n : nat) : string := digits_fuel (S n) n EmptyString.

(** [strconv.Itoa]. *)
Definition Itoa (z : Z) : string :=
if (z <? 0)%Z then String "-" (digits (Z.abs_nat z)) else digits (Z.abs_nat z).

Fixpoint zeros (k : nat) : string :=
match k with
| O => EmptyString
| S k' => String "0" (zeros k')
end.

(** [fmt.Sprintf("%0<width>d", j)] for an index [j >= 0]: the decimal digits
  of [j], padded on the left with zeros up to [width]. *)
Definition Sprintf_0d (width : nat) (j : nat) : string :=
let d := digits j in
zeros (width - String.length d) +:+ d.

(** Value of a run of decimal digits; [None] when a byte is not a digit or
  the run is empty. *)
Fixpoint parse_digits (s : string) (acc : Z) : option Z :=
match s with
| EmptyString => Some acc
| String c r =>
    if is_digit c then parse_digits r (acc * 10 + Z.of_nat (code c - 48))%Z
    else None
end.

Definition parse_unsigned (s : string) : option Z :=
match s with
| EmptyString => None
| _ => parse_digits s 0%Z
end.

(** [strconv.Atoi] on a 64-bit platform: an optional sign, then at least one
  decimal digit, and the value has to fit in an [int]; [None] stands for a
  non-nil error. *)
Definition Atoi (s : string) : option Z :=
let signed :=
  match s with
  | String "-" r => option_map Z.opp (parse_unsigned r)
  | String "+" r => parse_unsigned r
  | _ => parse_unsigned s
  end in
match signed with
| Some n => if ((- 2 ^ 63 <=? n) && (n <=? 2 ^ 63 - 1))%Z then Some n else None
| None => None
end.

End GoStrings.

(** ** Go values as [reflect] sees them *)

(** [pkgConfig]: the options of the package.  [Headers] is a pointer to the
    caller's header slice: [None] is the nil pointer, [Some hs] a pointer to
    a slice holding [hs]. *)
Record pkgConfig := {
  Sort : bool;
  Generate : bool;
  Headers : option (list string);
  ExcludeNil : bool;
  IncludeZero : bool
}.

(** The configuration both entry points start from, before any option. *)
Definition defaultConfig : pkgConfig :=
  {| Sort := false; Generate := false; Headers := None;
     ExcludeNil := false; IncludeZero := false |}.

Definition WithGenerate (cfg : pkgConfig) : pkgConfig :=
  {| Sort := Sort cfg; Generate := true; Headers := Headers cfg;
     ExcludeNil := ExcludeNil cfg; IncludeZero := IncludeZero cfg |}.

Definition WithHeaders (headers : option (list string)) (cfg : pkgConfig) : pkgConfig :=
  {| Sort := Sort cfg; Generate := Generate cfg; Headers := headers;
     ExcludeNil := ExcludeNil cfg; IncludeZero := IncludeZero cfg |}.

Definition WithExcludeNil (cfg : pkgConfig) : pkgConfig :=
  {| Sort := Sort cfg; Generate := Generate cfg; Headers := Headers cfg;
     ExcludeNil := true; IncludeZero := IncludeZero cfg |}.

(** [reflect.Kind], restricted to the kinds of the modelled values. *)
Inductive Kind :=
| Invalid | Bool | Int | String_ | Struct | Map | Slice | Array | Ptr | Interface.

#[global] Instance Kind_eq_dec : EqDecision Kind.
Proof. solve_decision. Defined.

(** What [field.Tag.Get] returns for the three tag keys the package reads. *)
Record StructTag := { json : string; url : string; xml : string }.

Definition noTag : StructTag := {| json := ""; url := ""; xml := "" |}.
Definition jsonTag (s : string) : StructTag := {| json := s; url := ""; xml := "" |}.

(** [reflect.StructField] without its type, which is read off the field's
    value.  A field is exported when [PkgPath] is empty. *)
Record StructField := {
  Name : string;
  PkgPath : string;
  Tag : StructTag;
  Anonymous : bool
}.

Definition IsExported (f : StructField) : bool := String.eqb (PkgPath f) "".

(** Static types.  A struct type carries the text of [Type.String()]
    (["time.Time"] for the timestamp type). *)
Inductive type :=
| TBool
| TInt
| TString
| TStruct (name : string) (fields : list (StructField * type))
| TPtr (elem : type)
| TInterface
| TMap (key elem : type)
| TSlice (elem : type)
| TArray (len : nat) (elem : type).

(** Values.  [VInvalid] is the zero [reflect.Value].  A pointer, a map, a
    slice and an array record their element types, which is what [Type()]
    gives when they are nil or empty.  A struct records the text its type
    prints as and, when the type has a [String] method, the text that method
    returns for this value ([fmt] prints that instead of the fields). *)
Inductive value :=
| VInvalid
| VBool (b : bool)
| VInt (z : Z)
| VString (s : string)
| VStruct (name : string) (stringer : option string) (fields : list (StructField * value))
| VPtr (elem : type) (target : option value)
| VIface (dyn : option value)
| VMap (key elem : type) (entries : list (value * value))
| VSlice (elem : type) (elems : list value)
| VArray (elem : type) (elems : list value).

Definition KindOfType (t : type) : Kind :=
  match t with
  | TBool => Bool
  | TInt => Int
  | TString => String_
  | TStruct _ _ => Struct
  | TPtr _ => Ptr
  | TInterface => Interface
  | TMap _ _ => Map
  | TSlice _ => Slice
  | TArray _ _ => Array
  end.

(** [Value.Kind()]. *)
Definition KindOf (v : value) : Kind :=
  match v with
  | VInvalid => Invalid
  | VBool _ => Bool
  | VInt _ => Int
  | VString _ => String_
  | VStruct _ _ _ => Struct
  | VPtr _ _ => Ptr
  | VIface _ => Interface
  | VMap _ _ _ => Map
  | VSlice _ _ => Slice
  | VArray _ _ => Array
  end.

(** [reflect.Zero(t)].  The zero struct is built without a [String]
    rendering: the field-name generator, the only caller, never prints it. *)
Fixpoint Zero (t : type) : value :=
  match t with
  | TBool => VBool false
  | TInt => VInt 0
  | TString => VString ""
  | TStruct name fields => VStruct name None (map (fun ft => (fst ft, Zero (snd ft))) fields)
  | TPtr elem => VPtr elem None
  | TInterface => VIface None
  | TMap key elem => VMap key elem []
  | TSlice elem => VSlice elem []
  | TArray len elem => VArray elem (repeat (Zero elem) len)
  end.

(** A nil pointer or a nil interface: the test
    [(Kind() == Ptr || Kind() == Interface) && IsNil()]. *)
Definition isNilRef (v : value) : bool :=
  match v with
  | VPtr _ None | VIface None => true
  | _ => false
  end.

(** [DerefPointers]: unwrap pointers and interfaces until another kind is
    reached.  The [switch] on the kind of a nil reference never matches (the
    kind is [Ptr] or [Interface] there), so a nil reference falls through
    to [Elem()], which yields the zero [reflect.Value]; the returned error
    is always nil and is left out. *)
Fixpoint DerefPointers (val : value) : value :=
  match val with
  | VPtr _ (Some target) => DerefPointers target
  | VPtr _ None => VInvalid
  | VIface (Some dyn) => DerefPointers dyn
  | VIface None => VInvalid
  | _ => val
  end.

(** Heights, used to supply the recursive walkers with fuel.  The height of
    a type bounds the height of its zero value, which the generator visits
    when a sequence yields no field. *)
Fixpoint theight (t : type) : nat :=
  match t with
  | TStruct _ fields => S (list_max (map (fun ft => theight (snd ft)) fields))
  | TSlice elem | TArray _ elem => S (theight elem)
  | _ => 1
  end.

Fixpoint height (v : value) : nat :=
  match v with
  | VStruct _ _ fields => S (list_max (map (fun fv => height (snd fv)) fields))
  | VPtr _ target => S (match target with Some x => height x | None => 0 end)
  | VIface dyn => S (match dyn with Some x => height x | None => 0 end)
  | VMap _ _ entries =>
      S (list_max (map (fun kv => Nat.max (height (fst kv)) (height (snd kv))) entries))
  | VSlice elem elems | VArray elem elems =>
      S (Nat.max (theight elem) (list_max (map height elems)))
  | _ => 1
  end.

(** ** [sort.Slice] *)

(** [sort.Slice] runs an insertion sort on slices of up to twelve elements:
    each element in turn moves left while it is [less] than its left
    neighbour.  The sorted prefix is kept reversed in [racc].  The model
    uses this insertion sort for slices of every length. *)
Fixpoint insert_back {A} (less : A -> A -> bool) (x : A) (racc : list A) : list A :=
  match racc with
  | [] => [x]
  | y :: r => if less x y then y :: insert_back less x r else x :: racc
  end.

Definition sort_Slice {A} (less : A -> A -> bool) (l : list A) : list A :=
  rev (fold_left (fun racc x => insert_back less x racc) l []).

(** ** Small helpers of the package *)

(** [joinPrefixKey]. *)
Definition joinPrefixKey (prefix key : string) : string :=
  if String.eqb prefix "" && String.eqb key "" then ""
  else if String.eqb prefix "" then key
  else if String.eqb key "" then prefix
  else prefix +:+ "." +:+ key.

(** [getFirstTag]: the part of a tag before its first comma. *)
Definition getFirstTag (tag : string) : string := GoStrings.before "," tag.

(** [shouldInline]. *)
Definition shouldInline (field : StructField) : bool :=
  GoStrings.Contains (json (Tag field)) ",inline".

(** [isLetter]. *)
Definition isLetter (ch : ascii) : bool :=
  GoStrings.is_lower ch || GoStrings.is_upper ch || Ascii.eqb ch "_".

(** [ensureValidIdentifier]. *)
Definition ensureValidIdentifier (name : string) : string :=
  match name with
  | EmptyString => "Field" +:+ name
  | String c _ => if isLetter c then name else "Field" +:+ name
  end.

(** [camelKey]: an ASCII capital in first position is lower-cased.  Any other
    first byte is left as it is: [unicode.ToLower] changes no other ASCII
    character, and text starting with a multi-byte rune is outside the
    model. *)
Definition camelKey (s : string) : string :=
  match s with
  | EmptyString => s
  | String firstChar rest =>
      if GoStrings.is_upper firstChar
      then String (ascii_of_nat (GoStrings.code firstChar + 32)) rest
      else s
  end.

(** [getMapKey]. *)
Definition getMapKey (field : StructField) : string :=
  let jsonTag := getFirstTag (json (Tag field)) in
  let urlTag := getFirstTag (url (Tag field)) in
  let xmlTag := getFirstTag (xml (Tag field)) in
  if negb (String.eqb jsonTag "") && negb (String.eqb jsonTag "-") then jsonTag
  else if negb (String.eqb urlTag "") && negb (String.eqb urlTag "-") then urlTag
  else if negb (String.eqb xmlTag "") && negb (String.eqb xmlTag "-") then xmlTag
  else camelKey (Name field).

(** The test [field.Type.String() == "time.Time"], on the field's value. *)
Definition isTimeType (fieldVal : value) : bool :=
  match fieldVal with
  | VStruct name _ _ => String.eqb name "time.Time"
  | _ => false
  end.

(** [field.Type.Kind() == k || (field.Type.Kind() == Ptr &&
    field.Type.Elem().Kind() == k)], on the field's value. *)
Definition typeIsOrPointsTo (k : Kind) (fieldVal : value) : bool :=
  bool_decide (KindOf fieldVal = k) ||
  match fieldVal with
  | VPtr elem _ => bool_decide (KindOfType elem = k)
  | _ => false
  end.

(** ** [fmt.Sprint] *)

(** The order in which [fmt] prints map keys. *)
Definition keyLess (a b : value) : bool :=
  match a, b with
  | VInt x, VInt y => (x <? y)%Z
  | VString x, VString y => String.ltb x y
  | VBool x, VBool y => negb x && y
  | _, _ => false
  end.

(** Addresses are not modelled: every pointer that [fmt] prints as an
    address is rendered by this one text. *)
Definition pointerText : string := "0xc000010000".

(** [fmt.Sprint(v)] with the default verb.  [top] tells whether [v] is the
    operand itself (only then is a pointer to a composite value printed as
    [&] followed by the value); [methods] tells whether [fmt] may call a
    [String] method, which it may not below an unexported field. *)
Fixpoint Sprint_at (top methods : bool) (v : value) : string :=
  match v with
  | VInvalid => "<nil>"
  | VBool b => if b then "true" else "false"
  | VInt z => GoStrings.Itoa z
  | VString s => s
  | VStruct _ stringer fields =>
      match stringer, methods with
      | Some s, true => s
      | _, _ =>
          "{" +:+ String.concat " "
                   (map (fun fv => Sprint_at false (methods && IsExported (fst fv)) (snd fv))
                        fields) +:+ "}"
      end
  | VPtr _ None => "<nil>"
  | VPtr _ (Some target) =>
      match target with
      | VStruct _ (Some s) _ => if methods then s else pointerText
      | VStruct _ None _ | VSlice _ _ | VArray _ _ | VMap _ _ _ =>
          if top then "&" +:+ Sprint_at false methods target else pointerText
      | _ => pointerText
      end
  | VIface None => "<nil>"
  | VIface (Some dyn) => Sprint_at top methods dyn
  | VMap _ _ entries =>
      "map[" +:+ String.concat " "
                  (map snd
                     (sort_Slice (fun a b => keyLess (fst a) (fst b))
                        (map (fun kv => (fst kv,
                                         Sprint_at false methods (fst kv) +:+ ":" +:+
                                         Sprint_at false methods (snd kv)))
                             entries))) +:+ "]"
  | VSlice _ elems | VArray _ elems =>
      "[" +:+ String.concat " " (map (Sprint_at false methods) elems) +:+ "]"
  end.

Definition Sprint (v : value) : string := Sprint_at true true v.

(** [v.Interface()] followed by [fmt.Sprint]: [Interface] panics on the zero
    [reflect.Value]. *)
Definition SprintInterface (v : value) : result string :=
  match v with
  | VInvalid => Panic "reflect: call of reflect.Value.Interface on zero Value"
  | _ => Ok (Sprint v)
  end.

(** [Kind.String()]. *)
Definition KindString (k : Kind) : string :=
  match k with
  | Invalid => "invalid"
  | Bool => "bool"
  | Int => "int"
  | String_ => "string"
  | Struct => "struct"
  | Map => "map"
  | Slice => "slice"
  | Array => "array"
  | Ptr => "ptr"
  | Interface => "interface"
  end.

(** ** The field-name generator *)

(** Modelled from the spec: [MergeFields] is called by [GenerateFieldNames]
    but its body is not part of the sources at hand.  The specification
    describes it as a union merge: the baseline keeps its order, and every
    path of the candidate that is not already present is appended, in the
    candidate's order. *)
Definition MergeFields (baseline candidate : list string) : list string :=
  fold_left (fun acc f => if bool_decide (f ∈ acc) then acc else acc ++ [f])
            candidate baseline.

Section Generator.

(** The recursive call to [GenerateFieldNames]. *)
Variable rec : string -> value -> pkgConfig -> result (list string).

(** The loop over the sorted keys of [generateMapFieldNames].  The inner
    call passes no option. *)
Fixpoint mapKeysLoop (prefix : string) (keys : list (value * value))
         (fields : list string) : result (list string) :=
  match keys with
  | [] => Ok fields
  | (key, value) :: keys' =>
      let keyStr := Sprint key in
      let fieldKey := joinPrefixKey prefix keyStr in
      match KindOf value with
      | Map | Struct =>
          subFields ← rec fieldKey value defaultConfig;
          mapKeysLoop prefix keys' (fields ++ subFields)
      | _ => mapKeysLoop prefix keys' (fields ++ [fieldKey])
      end
  end.

(** [generateMapFieldNames]. *)
Definition generateMapFieldNames_with (prefix : string) (val : value)
  : result (list string) :=
  let val := DerefPointers val in
  match val with
  | VMap _ _ entries =>
      let keys :=
        sort_Slice (fun a b => String.ltb (Sprint (fst a)) (Sprint (fst b))) entries in
      mapKeysLoop prefix keys []
  | _ => Err ("generateMapFieldNames: expected a map, got " +:+ KindString (KindOf val))
  end.

(** First loop of the sequence case: the field list of the first
    candidate that is not a nil reference. *)
Fixpoint firstCandidate (prefix : string) (cfg : pkgConfig) (elems : list value)
  : result (list string) :=
  match elems with
  | [] => Ok []
  | mergeCandidate :: elems' =>
      if isNilRef mergeCandidate then firstCandidate prefix cfg elems'
      else rec prefix (DerefPointers mergeCandidate) cfg
  end.

(** Second loop of the sequence case: every candidate that is not a nil
    reference is merged into the baseline. *)
Fixpoint mergeLoop (prefix : string) (cfg : pkgConfig) (elems : list value)
         (mergedFields : list string) : result (list string) :=
  match elems with
  | [] => Ok mergedFields
  | mergeCandidate :: elems' =>
      if isNilRef mergeCandidate then mergeLoop prefix cfg elems' mergedFields
      else
        subFields ← rec prefix (DerefPointers mergeCandidate) cfg;
        mergeLoop prefix cfg elems' (MergeFields mergedFields subFields)
  end.

(** One iteration of the loop over the fields of a struct: the paths the
    field adds. *)
Definition structField (prefix : string) (cfg : pkgConfig)
           (field : StructField) (fieldVal : value) : result (list string) :=
  let jsonTag := getFirstTag (json (Tag field)) in
  if isTimeType fieldVal && negb (Anonymous field) then Ok [jsonTag]
  else if String.eqb jsonTag "-" then Ok []
  else if ExcludeNil cfg && isNilRef fieldVal then Ok []
  else
    let fieldKey := joinPrefixKey prefix jsonTag in
    if shouldInline field then rec prefix fieldVal cfg
    else if typeIsOrPointsTo Struct fieldVal then rec fieldKey fieldVal cfg
    else if typeIsOrPointsTo Map fieldVal then generateMapFieldNames_with fieldKey fieldVal
    else Ok [fieldKey].

Fixpoint structLoop (prefix : string) (cfg : pkgConfig)
         (fs : list (StructField * value)) (fields : list string)
  : result (list string) :=
  match fs with
  | [] => Ok fields
  | (field, fieldVal) :: fs' =>
      subFields ← structField prefix cfg field fieldVal;
      structLoop prefix cfg fs' (fields ++ subFields)
  end.

(** The sequence case, for a slice or an array with elements [elems] of
    type [elem]. *)
Definition sequenceCase (prefix : string) (cfg : pkgConfig)
           (elem : type) (elems : list value) : result (list string) :=
  match elems with
  | [] => Err "GenerateFieldNames: empty slice or array"
  | _ =>
      baseline ← firstCandidate prefix cfg elems;
      mergedFields ← mergeLoop prefix cfg elems baseline;
      match mergedFields with
      | [] => rec prefix (Zero elem) cfg
      | _ => Ok mergedFields
      end
  end.

(** The body of [GenerateFieldNames].  The two cases for a pointer and an
    interface cannot be reached after [DerefPointers]; they are kept as
    the source has them. *)
Definition GenerateFieldNames_body (prefix : string) (val : value) (cfg : pkgConfig)
  : result (list string) :=
  let val := DerefPointers val in
  match val with
  | VMap _ _ _ => generateMapFieldNames_with prefix val
  | VSlice elem elems | VArray elem elems => sequenceCase prefix cfg elem elems
  | VStruct _ _ fs => structLoop prefix cfg fs []
  | VIface None | VPtr _ None => Ok []
  | VIface (Some x) | VPtr _ (Some x) => rec prefix x cfg
  | VInvalid => Ok [prefix]
  | _ => Err ("GenerateFieldNames: unsupported input type: " +:+ KindString (KindOf val))
  end.

End Generator.

Fixpoint GenerateFieldNames_fuel (fuel : nat)
  : string -> value -> pkgConfig -> result (list string) :=
  match fuel with
  | O => fun _ _ _ => OutOfFuel
  | S fuel' => GenerateFieldNames_body (GenerateFieldNames_fuel fuel')
  end.

(** [GenerateFieldNames(prefix, val, opts...)]; [cfg] is the configuration
    the options build. *)
Definition GenerateFieldNames (prefix : string) (val : value) (cfg : pkgConfig)
  : result (list string) :=
  GenerateFieldNames_fuel (height val) prefix val cfg.

(** [generateMapFieldNames(prefix, val)]. *)
Definition generateMapFieldNames (prefix : string) (val : value) : result (list string) :=
  generateMapFieldNames_with (GenerateFieldNames_fuel (height val)) prefix val.

(** ** The flattener *)

(** The width of the index segment in [flattenSlice]:
    [len(strconv.Itoa(slice.Len() - 1))], and at least 2. *)
Definition indexWidth (len : nat) : nat :=
  let width := String.length (GoStrings.Itoa (Z.of_nat len - 1)) in
  if (width <? 2)%nat then 2%nat else width.

Section Flattener.

(** The recursive call to [FlattenNestedStructs]; the field map is passed
    in and the updated map is returned. *)
Variable rec : value -> string -> gmap string string -> result (gmap string string).

(** The loop of [flattenSlice], from index [j] on. *)
Fixpoint sliceLoop (width : nat) (keyPrefix : string) (j : nat) (elems : list value)
         (fieldMap : gmap string string) : result (gmap string string) :=
  match elems with
  | [] => Ok fieldMap
  | elem :: elems' =>
      let elemKey := joinPrefixKey keyPrefix (GoStrings.Sprintf_0d width j) in
      fieldMap' ←
        (if bool_decide (KindOf elem = Struct) then rec elem elemKey fieldMap
         else s ← SprintInterface elem; Ok (<[elemKey := s]> fieldMap));
      sliceLoop width keyPrefix (S j) elems' fieldMap'
  end.

(** [flattenSlice]. *)
Definition flattenSlice_with (elems : list value) (keyPrefix : string)
           (fieldMap : gmap string string) : result (gmap string string) :=
  sliceLoop (indexWidth (length elems)) keyPrefix 0 elems fieldMap.

(** The loop over the sorted keys of [flattenMap]. *)
Fixpoint mapLoop (prefix : string) (keys : list (value * value))
         (fieldMap : gmap string string) : result (gmap string string) :=
  match keys with
  | [] => Ok fieldMap
  | (key, value) :: keys' =>
      let keyStr := Sprint key in
      let newKey := joinPrefixKey prefix keyStr in
      let value := DerefPointers value in
      fieldMap' ←
        match KindOf value with
        | Map | Struct | Slice | Array => rec value newKey fieldMap
        | _ => s ← SprintInterface value; Ok (<[newKey := s]> fieldMap)
        end;
      mapLoop prefix keys' fieldMap'
  end.

(** [flattenMap]. *)
Definition flattenMap_with (entries : list (value * value)) (prefix : string)
           (fieldMap : gmap string string) : result (gmap string string) :=
  let keys :=
    sort_Slice (fun a b => String.ltb (Sprint (fst a)) (Sprint (fst b))) entries in
  mapLoop prefix keys fieldMap.

(** One iteration of the loop over the fields of a struct in
    [FlattenNestedStructs]. *)
Definition flattenField (prefix : string) (field : StructField) (fieldVal : value)
           (fieldMap : gmap string string) : result (gmap string string) :=
  if negb (IsExported field) then Ok fieldMap
  else
    let keyPrefix := joinPrefixKey prefix (getMapKey field) in
    match fieldVal with
    | VSlice _ elems =>
        match elems with
        | [] => Ok (<[keyPrefix := ""]> fieldMap)
        | _ => flattenSlice_with elems keyPrefix fieldMap
        end
    | VStruct _ _ _ =>
        if isTimeType fieldVal && negb (Anonymous field)
        then s ← SprintInterface fieldVal; Ok (<[keyPrefix := s]> fieldMap)
        else if shouldInline field then rec fieldVal prefix fieldMap
        else rec fieldVal keyPrefix fieldMap
    | VIface dyn =>
        match dyn with
        | Some elem =>
            if bool_decide (KindOf elem = Struct) then rec elem prefix fieldMap
            else Ok fieldMap
        | None => Ok fieldMap
        end
    | VMap _ _ entries =>
        match entries with
        | [] => Ok (<[keyPrefix := ""]> fieldMap)
        | _ =>
            if shouldInline field then flattenMap_with entries prefix fieldMap
            else flattenMap_with entries keyPrefix fieldMap
        end
    | VPtr _ target =>
        match target with
        | None => Ok (<[keyPrefix := "<nil>"]> fieldMap)
        | Some underlying =>
            match KindOf underlying with
            | Struct =>
                if shouldInline field then rec underlying prefix fieldMap
                else rec underlying keyPrefix fieldMap
            | Map | Slice | Array => rec underlying keyPrefix fieldMap
            | _ => s ← SprintInterface underlying; Ok (<[keyPrefix := s]> fieldMap)
            end
        end
    | VInvalid => Ok (<[keyPrefix := "<nil>"]> fieldMap)
    | _ => s ← SprintInterface fieldVal; Ok (<[keyPrefix := s]> fieldMap)
    end.

Fixpoint fieldsLoop (prefix : string) (fs : list (StructField * value))
         (fieldMap : gmap string string) : result (gmap string string) :=
  match fs with
  | [] => Ok fieldMap
  | (field, fieldVal) :: fs' =>
      fieldMap' ← flattenField prefix field fieldVal fieldMap;
      fieldsLoop prefix fs' fieldMap'
  end.

(** The body of [FlattenNestedStructs].  [item] is the value held by the
    [interface{}] argument ([VInvalid] for a nil argument); [val.Type()]
    panics on the zero [reflect.Value]. *)
Definition FlattenNestedStructs_body (item : value) (prefix : string)
           (fieldMap : gmap string string) : result (gmap string string) :=
  let val := DerefPointers item in
  match val with
  | VInvalid => Panic "reflect: call of reflect.Value.Type on zero Value"
  | VStruct _ _ fs => fieldsLoop prefix fs fieldMap
  | VMap _ _ entries => flattenMap_with entries prefix fieldMap
  | VSlice _ elems => flattenSlice_with elems prefix fieldMap
  | _ => Err ("expected a struct or pointer to a struct, got " +:+ KindString (KindOf val))
  end.

End Flattener.

Fixpoint FlattenNestedStructs_fuel (fuel : nat)
  : value -> string -> gmap string string -> result (gmap string string) :=
  match fuel with
  | O => fun _ _ _ => OutOfFuel
  | S fuel' => FlattenNestedStructs_body (FlattenNestedStructs_fuel fuel')
  end.

(** [FlattenNestedStructs(item, prefix, fieldMap)]. *)
Definition FlattenNestedStructs (item : value) (prefix : string)
           (fieldMap : gmap string string) : result (gmap string string) :=
  FlattenNestedStructs_fuel (height item) item prefix fieldMap.


(** ** The table assembler *)

(** A key belongs to a header when it equals the header or starts with the
    header followed by a dot. *)
Definition matchesHeader (key header : string) : bool :=
  String.eqb key header || GoStrings.HasPrefix key (header +:+ ".").

(** The comparator of [sortGroupKeys]. *)
Definition groupLess (header a b : string) : bool :=
  if String.eqb a header && negb (String.eqb b header) then true
  else if String.eqb b header && negb (String.eqb a header) then false
  else
    let aSuffix := GoStrings.TrimPrefix a (header +:+ ".") in
    let bSuffix := GoStrings.TrimPrefix b (header +:+ ".") in
    let partsA := GoStrings.SplitN2 aSuffix in
    let partsB := GoStrings.SplitN2 bSuffix in
    match GoStrings.Atoi (hd "" partsA), GoStrings.Atoi (hd "" partsB) with
    | Some nA, Some nB =>
        if negb (nA =? nB)%Z then (nA <? nB)%Z
        else
          match partsA, partsB with
          | [_; restA], [_; restB] => String.ltb restA restB
          | _, _ => (length partsA <? length partsB)%nat
          end
    | _, _ => String.ltb a b
    end.

Definition sortGroupKeys (header : string) (keys : list string) : list string :=
  sort_Slice (groupLess header) keys.

(** The keys of the field map, in the order a [range] over the map visits
    them. *)
Definition mapKeys (fieldMap : gmap string string) : list string :=
  map fst (map_to_list fieldMap).

(** Indexing the field map by [key]: the empty string for a missing key. *)
Definition mapGet (fieldMap : gmap string string) (key : string) : string :=
  default "" (fieldMap !! key).

(** The keys collected for one header, sorted. *)
Definition headerGroup (fieldMap : gmap string string) (header : string) : list string :=
  sortGroupKeys header
    (List.filter (fun key => matchesHeader key header) (mapKeys fieldMap)).

(** The keys that no header matches, in lexicographic order. *)
Definition leftoverKeys (fieldMap : gmap string string) (headers : list string)
  : list string :=
  sort_Slice String.ltb
    (List.filter (fun key => negb (existsb (matchesHeader key) headers)) (mapKeys fieldMap)).

(** [mapToSliceAndUpdateFields], on the slice [headers] points to: the rows
    [{key, value}] and the new content of [*headers].  The error the source
    returns is always nil. *)
Definition mapToSliceAndUpdateFields (fieldMap : gmap string string)
           (headers : list string) : list (string * string) * list string :=
  let newFields := flat_map (headerGroup fieldMap) headers ++ leftoverKeys fieldMap headers in
  (map (fun key => (key, mapGet fieldMap key)) newFields, newFields).

(** The pruning step of [FlattenStructFields]: keep the keys that match a
    header, then, when fewer keys than headers remain, give every header
    that is not itself a key an empty value. *)
Definition pruneToHeaders (fieldMap : gmap string string) (headers : list string)
  : gmap string string :=
  let newMap : gmap string string :=
    filter (fun kv => Is_true (existsb (matchesHeader (fst kv)) headers)) fieldMap in
  if (size newMap <? length headers)%nat
  then fold_left (fun (m : gmap string string) header =>
                    match m !! header with
                    | Some _ => m
                    | None => <[header := ""]> m
                    end) headers newMap
  else newMap.

(** [FlattenStructFields(item, opts...)].  The result is the returned rows
    together with the final content of the header slice the caller passed
    ([None] when the caller passed none); with [Generate] set and no header
    supplied the function works on a slice of its own and the caller's stays
    as it was. *)
Definition FlattenStructFields (item : value) (cfg : pkgConfig)
  : result (list (string * string) * option (list string)) :=
  let val := DerefPointers item in
  if negb (bool_decide (KindOf val = Struct))
  then Err ("expected a struct or pointer to a struct, got " +:+ KindString (KindOf val))
  else
    let own :=
      Generate cfg &&
      match Headers cfg with None => true | Some hs => (length hs =? 0)%nat end in
    headers ←
      (if own
       then generatedFields ← GenerateFieldNames "" val defaultConfig;
            Ok (Some ([] ++ generatedFields))
       else Ok (Headers cfg));
    fieldMap ← FlattenNestedStructs item "" ∅;
    fieldMap ←
      (if negb (Generate cfg)
       then match headers with
            | None => Panic "runtime error: invalid memory address or nil pointer dereference"
            | Some hs => Ok (pruneToHeaders fieldMap hs)
            end
       else Ok fieldMap);
    match headers with
    | None => Panic "runtime error: invalid memory address or nil pointer dereference"
    | Some hs =>
        let '(fieldSlice, newFields) := mapToSliceAndUpdateFields fieldMap hs in
        Ok (fieldSlice, if own then Headers cfg else Some newFields)
    end.

(** ** Rebuilding records from a table *)

(** [cases.Title(language.English).String] on ASCII text.  The caser walks
    the text once: a letter that starts a word is upper-cased, a letter
    inside a word is lower-cased, every other byte is copied.  A digit and an
    underscore leave the word open; an apostrophe, a period and a colon do
    so too unless two of them meet; any other byte closes the word.  Bytes
    above 127 are outside the model and are treated as closing the word. *)
Definition isMid (c : ascii) : bool :=
  Ascii.eqb c "'" || Ascii.eqb c "." || Ascii.eqb c ":".

Definition isBreak (c : ascii) : bool :=
  negb (GoStrings.is_alpha c || GoStrings.is_digit c || Ascii.eqb c "_" || isMid c).

Fixpoint titleFrom (isMidWord wasMid : bool) (s : string) : string :=
  match s with
  | EmptyString => EmptyString
  | String c r =>
      let isMidWord := if wasMid && isMid c then false else isMidWord in
      if GoStrings.is_alpha c
      then String (if isMidWord then GoStrings.to_lower c else GoStrings.to_upper c)
                  (titleFrom true false r)
      else String c (titleFrom (if isBreak c then false else isMidWord) (isMid c) r)
  end.

Definition Title (s : string) : string := titleFrom false false s.

(** The field name [TableToStructs] derives from a header. *)
Definition safeHeader (header : string) : string :=
  ensureValidIdentifier (Title (GoStrings.RemoveSpaces header)).

(** [reflect.StructOf] accepts a field name made of letters, digits and
    underscores that does not start with a digit (ASCII only in the
    model). *)
Fixpoint allNameBytes (s : string) : bool :=
  match s with
  | EmptyString => true
  | String c r => (isLetter c || GoStrings.is_digit c) && allNameBytes r
  end.

Definition isValidFieldName (fieldName : string) : bool :=
  match fieldName with
  | EmptyString => false
  | String c _ => isLetter c && allNameBytes fieldName
  end.

(** A field without [PkgPath] whose name starts with a lower-case letter or
    an underscore is refused by [reflect.StructOf]. *)
Definition looksUnexported (fieldName : string) : bool :=
  match fieldName with
  | EmptyString => false
  | String c _ => GoStrings.is_lower c || Ascii.eqb c "_"
  end.

(** The checks of [reflect.StructOf], field by field; [seen] holds the
    names of the fields already accepted. *)
Fixpoint structOfChecks (names seen : list string) : result unit :=
  match names with
  | [] => Ok tt
  | name :: names' =>
      if negb (isValidFieldName name)
      then Panic "reflect.StructOf: field has invalid name"
      else if looksUnexported name
      then Panic "reflect.StructOf: field is unexported but missing PkgPath"
      else if bool_decide (name ∈ seen) && negb (String.eqb name "_")
      then Panic "reflect.StructOf: duplicate field"
      else structOfChecks names' (name :: seen)
  end.

(** The field [TableToStructs] declares for a header: the sanitized name,
    the type [string] and the tag built from the header.  [Tag.Get("json")]
    gives the header back whenever the name passes [structOfChecks]: the
    header then holds only letters, digits, underscores and spaces, and
    nothing that would need escaping in the tag. *)
Definition headerField (header : string) : StructField :=
  {| Name := safeHeader header; PkgPath := ""; Tag := jsonTag header; Anonymous := false |}.

(** The text a struct type built by [reflect.StructOf] prints as; the tags
    are left out, the text only has to differ from that of a named type. *)
Definition structTypeString (fields : list StructField) : string :=
  "struct { " +:+ String.concat "; " (map (fun f => Name f +:+ " string") fields) +:+ " }".

(** The loop that fills one struct per data row. *)
Fixpoint populate (fields : list StructField) (rows : list (list string))
         (results : list value) : result (list value) :=
  match rows with
  | [] => Ok results
  | row :: rows' =>
      if negb (length row =? length fields)%nat
      then Err "data row does not match headers length"
      else
        let instance :=
          VStruct (structTypeString fields) None
                  (combine fields (map VString row)) in
        populate fields rows' (results ++ [instance])
  end.

(** [TableToStructs]. *)
Definition TableToStructs (data : list (list string)) : result (list value) :=
  match data with
  | [] => Err "data is empty"
  | headers :: rows =>
      let fields := map headerField headers in
      _ ← structOfChecks (map Name fields) [];
      populate fields rows []
  end.

(** ** Values used in the examples *)

Module Examples.

Definition exportedField (name : string) (tag : StructTag) : StructField :=
  {| Name := name; PkgPath := ""; Tag := tag; Anonymous := false |}.

Definition unexportedField (pkg name : string) : StructField :=
  {| Name := name; PkgPath := pkg; Tag := noTag; Anonymous := false |}.

(** [struct{ Name string; Tags []string }{"Ann", {"x", "y"}}], no tags. *)
Definition ann : value :=
  VStruct "main.Person" None
    [ (exportedField "Name" noTag, VString "Ann");
      (exportedField "Tags" noTag, VSlice TString [VString "x"; VString "y"]) ].

(** The same value with the tags [json:"name"] and [json:"tags"]. *)
Definition annTagged : value :=
  VStruct "main.Person" None
    [ (exportedField "Name" (jsonTag "name"), VString "Ann");
      (exportedField "Tags" (jsonTag "tags"), VSlice TString [VString "x"; VString "y"]) ].

(** [struct{ A []string `json:"a"` }{{"x", "y"}}]. *)
Definition twoItems : value :=
  VStruct "main.Box" None
    [ (exportedField "A" (jsonTag "a"), VSlice TString [VString "x"; VString "y"]) ].

(** A [time.Time]: its three unexported fields and the text of its
    [String] method. *)
Definition someTime : value :=
  VStruct "time.Time" (Some "2024-01-02 03:04:05 +0000 UTC")
    [ (unexportedField "time" "wall", VInt 0);
      (unexportedField "time" "ext", VInt 63839761445);
      (unexportedField "time" "loc", VPtr (TStruct "time.Location" []) None) ].

(** [struct{ Created time.Time `json:"created"` }]. *)
Definition event : value :=
  VStruct "main.Event" None [ (exportedField "Created" (jsonTag "created"), someTime) ].





Definition fullNameTable : list (list string) :=
  [ ["Full Name"; "Age"]; ["Ann"; "30"] ].

End Examples.

(** The declared names and the values of the fields of a record. *)
Definition fieldNames (v : value) : list string :=
  match v with
  | VStruct _ _ fs => map (fun fv => Name (fst fv)) fs
  | _ => []
  end.

Definition fieldValues (v : value) : list value :=
  match v with
  | VStruct _ _ fs => map snd fs
  | _ => []
  end.

Import Examples.

(** ** Predicates used in the statements *)

(** Whether a name needs no prefix: it starts with an ASCII letter or an
    underscore. *)
Definition startsWithLetter (name : string) : bool :=
  match name with
  | EmptyString => false
  | String c _ => isLetter c
  end.



(** [a] may stand directly before [b] in a slice sorted by [less]: [b] is
    not less than [a]. *)
Definition inOrder {A} (less : A -> A -> bool) (a b : A) : Prop := less b a = false.

(** The number the first segment after the header prefix stands for, when it
    stands for one. *)
Definition firstSegmentNumber (header key : string) : option Z :=
  GoStrings.Atoi (hd "" (GoStrings.SplitN2 (GoStrings.TrimPrefix key (header +:+ ".")))).

(** What [mapToSliceAndUpdateFields] collects for one header. *)
Record groupOf (fieldMap : gmap string string) (header : string) (group : list string)
  : Prop := {
  group_keys : forall key,
    key ∈ group <-> is_Some (fieldMap !! key) /\ matchesHeader key header = true;
  group_NoDup : NoDup group;
  group_header_first : header ∈ group -> head group = Some header;
  group_sorted : Sorted (fun a b => groupLess header b a = false) group;
  group_numeric : forall i a b nA nB,
    group !! i = Some a -> group !! S i = Some b -> a <> header ->
    firstSegmentNumber header a = Some nA -> firstSegmentNumber header b = Some nB ->
    (nA <= nB)%Z
}.



(** The field map after writing the pairs of [pairs], in order. *)
Definition rowMap (pairs : list (string * string)) (fieldMap : gmap string string)
  : gmap string string :=
  fold_left (fun (m : gmap string string) p => <[fst p := snd p]> m) pairs fieldMap.

(** ** Further values used in the examples *)

Module MoreExamples.

(** [struct{ Owner *Person `json:"owner"`; ID int `json:"id"` }] with a nil
    [Owner]. *)
Definition ownerless : value :=
  VStruct "main.Asset" None
    [ (exportedField "Owner" (jsonTag "owner"), VPtr (TStruct "main.Person" []) None);
      (exportedField "ID" (jsonTag "id"), VInt 7) ].

(** [struct{ Name string `json:"name"`; secret string }]. *)
Definition withSecret : value :=
  VStruct "main.Account" None
    [ (exportedField "Name" (jsonTag "name"), VString "Ann");
      (unexportedField "main" "secret", VString "hunter2") ].

(** [map[string]int{"b": 2, "a": 1}], in two orders of iteration. *)
Definition smallMap : value :=
  VMap TString TInt [ (VString "b", VInt 2); (VString "a", VInt 1) ].

Definition smallMapOtherOrder : value :=
  VMap TString TInt [ (VString "a", VInt 1); (VString "b", VInt 2) ].

(** [struct{ ID int `json:"id"`; Name string `json:"name"`; Active bool
    `json:"active"` }{7, "Ann", true}]. *)
Definition flatRecord : value :=
  VStruct "main.User" None
    [ (exportedField "ID" (jsonTag "id"), VInt 7);
      (exportedField "Name" (jsonTag "name"), VString "Ann");
      (exportedField "Active" (jsonTag "active"), VBool true) ].

End MoreExamples.

Import MoreExamples.

(** A key lies under a prefix when the prefix is empty, or the key is the
    prefix or extends it by a dot. *)
Definition underPrefix (prefix key : string) : Prop :=
  prefix = "" \/ matchesHeader key prefix = true.

(** [fieldMap'] keeps the keys of [fieldMap] and adds only keys under
    [prefix]. *)
Definition growsUnder (prefix : string) (fieldMap fieldMap' : gmap string string) : Prop :=
  (forall key, is_Some (fieldMap !! key) -> is_Some (fieldMap' !! key))
  /\ (forall key, is_Some (fieldMap' !! key) ->
                  is_Some (fieldMap !! key) \/ underPrefix prefix key).

(** A field of a flat record: exported, holding a bool, an integer or a
    string, and tagged [json:"<tag>"] with a tag that is not empty, not the
    omit sentinel, and carries no option after a comma. *)
Definition simpleField (fv : StructField * value) : Prop :=
  IsExported (fst fv) = true
  /\ getFirstTag (json (Tag (fst fv))) = json (Tag (fst fv))
  /\ json (Tag (fst fv)) <> ""
  /\ json (Tag (fst fv)) <> "-"
  /\ shouldInline (fst fv) = false
  /\ (KindOf (snd fv) = Bool \/ KindOf (snd fv) = Int \/ KindOf (snd fv) = String_).

(** The json tag of a field and the row a simple field gives. *)
Definition fieldTag (fv : StructField * value) : string := json (Tag (fst fv)).

Definition fieldRow (fv : StructField * value) : string * string :=
  (fieldTag fv, Sprint (snd fv)).

(** ** Pagination links (package [requests]) *)

Module Requests.

(** [Paginator]. *)
Record Paginator := {
  Self : string;
  NextPageLink : string;
  NextPageToken : string;
  Paged : bool
}.

Definition setSelf (p : Paginator) (link : string) : Paginator :=
  {| Self := link; NextPageLink := NextPageLink p;
     NextPageToken := NextPageToken p; Paged := Paged p |}.

Definition setNextPageLink (p : Paginator) (link : string) : Paginator :=
  {| Self := Self p; NextPageLink := link;
     NextPageToken := NextPageToken p; Paged := Paged p |}.

(** The double quote, and the two relation markers the code looks for. *)
Definition doubleQuote : string := String (ascii_of_nat 34) EmptyString.
Definition relSelf : string := "rel=" +:+ doubleQuote +:+ "self" +:+ doubleQuote.
Definition relNext : string := "rel=" +:+ doubleQuote +:+ "next" +:+ doubleQuote.

(** [strings.Trim(s, "<>")]: the leading and the trailing angle brackets are
    removed. *)
Definition isAngle (c : ascii) : bool := Ascii.eqb c "<" || Ascii.eqb c ">".

Fixpoint TrimLeft (cutset : ascii -> bool) (s : string) : string :=
  match s with
  | EmptyString => EmptyString
  | String c r => if cutset c then TrimLeft cutset r else s
  end.

Definition TrimRight (cutset : ascii -> bool) (s : string) : string :=
  String.rev (TrimLeft cutset (String.rev s)).

Definition Trim (cutset : ascii -> bool) (s : string) : string :=
  TrimRight cutset (TrimLeft cutset s).

(** The link of a header value: the text before the first semicolon,
    without its angle brackets. *)
Definition rawLinkOf (link : string) : string :=
  Trim isAngle (GoStrings.before ";" link).

(** [HasNextPage], a method of [Paginator]: the returned flag and the
    paginator as the call leaves it. *)
Fixpoint HasNextPage (p : Paginator) (links : list string) : bool * Paginator :=
  match links with
  | [] => (false, p)
  | link :: links' =>
      let rawLink := rawLinkOf link in
      let p := if GoStrings.Contains link relSelf then setSelf p rawLink else p in
      if GoStrings.Contains link relNext
      then (true, setNextPageLink p rawLink)
      else HasNextPage p links'
  end.

(** A [Link] header as servers send it. *)
Definition linkHeader (target rel : string) : string :=
  "<" +:+ target +:+ ">; rel=" +:+ doubleQuote +:+ rel +:+ doubleQuote.

End Requests.

(** A call that did not run out of fuel. *)
Definition defined {A} (r : result A) : Prop := r <> OutOfFuel.

(** * Properties *)

(** ** Fuel *)

Lemma height_pos (v : value) : exists n, height v = S n.
Proof. destruct v; simpl; eauto. Qed.

Lemma res_le_refl {A} (r : result A) : res_le r r.
Proof. by right. Qed.


Lemma res_le_bind {A B} (r r' : result A) (k k' : A -> result B) :
  res_le r r' -> (forall a, res_le (k a) (k' a)) -> res_le (r ≫= k) (r' ≫= k').
Proof.
  intros [-> | ->] Hk; [by left |].
  destruct r' as [a | | |]; simpl; auto using res_le_refl.
Qed.

(** ** C9: an empty sequence *)

(** C9.  For every value that is, once pointers and interfaces are unwrapped,
    a slice or an array of length zero, [GenerateFieldNames] returns the
    empty-sequence error; an error result carries no path list. *)
Theorem C9_empty_sequence_is_an_error (prefix : string) (val : value)
        (elem : type) (cfg : pkgConfig) :
  DerefPointers val = VSlice elem [] \/ DerefPointers val = VArray elem [] ->
  GenerateFieldNames prefix val cfg = Err "GenerateFieldNames: empty slice or array".
Proof.
  intros H. unfold GenerateFieldNames.
  destruct (height_pos val) as [n ->]. simpl.
  unfold GenerateFieldNames_body.
  destruct H as [-> | ->]; reflexivity.
Qed.

Lemma C9_empty_sequence_witness :
  GenerateFieldNames "p" (VPtr (TSlice TString) (Some (VSlice TString []))) defaultConfig
  = Err "GenerateFieldNames: empty slice or array".
Proof.
  apply (C9_empty_sequence_is_an_error "p" _ TString defaultConfig).
  left. reflexivity.
Defined.

(** ** C1: pruning to the supplied headers *)

(** C1 (failing input).  With the headers [a] and [b] and a value whose only
    field [a] is a two-element sequence, two keys survive the pruning; that
    is not fewer than the number of headers, so the loop that adds the
    missing headers is skipped and no row is returned for [b]. *)
Theorem C1_unmatched_header_gets_no_row :
  FlattenStructFields twoItems (WithHeaders (Some ["a"; "b"]) defaultConfig)
  = Ok ([("a.00", "x"); ("a.01", "y")], Some ["a.00"; "a.01"]).
Proof. vm_compute. reflexivity. Qed.

(** ** C2: the untagged record *)

(** C2 (counterexample).  On the untagged record the generator does not
    return the three paths [name], [tags.00], [tags.01]. *)
Lemma C2_generated_paths_differ :
  GenerateFieldNames "" ann defaultConfig <> Ok ["name"; "tags.00"; "tags.01"].
Proof. vm_compute. discriminate. Qed.

(** C2 (amended).  For the untagged record [{Name:"Ann", Tags:["x","y"]}]
    the flattened mapping is [{name: Ann, tags.00: x, tags.01: y}], the keys
    falling back to the declared names with a lower-case first letter, and
    [FlattenStructFields] with generation enabled returns the three rows in
    that order.  [GenerateFieldNames] returns one path per declared field
    and no index segment: with the tags [name] and [tags] on the fields it
    returns [name] and [tags]. *)
Theorem C2_untagged_record_flattens_by_name :
  FlattenNestedStructs ann "" ∅
  = Ok (<["name" := "Ann"]> (<["tags.00" := "x"]> (<["tags.01" := "y"]> ∅)))
  /\ FlattenStructFields ann (WithGenerate defaultConfig)
     = Ok ([("name", "Ann"); ("tags.00", "x"); ("tags.01", "y")], None)
  /\ (exists fields, GenerateFieldNames "" ann defaultConfig = Ok fields
                     /\ length fields = length (fieldNames ann))
  /\ GenerateFieldNames "" annTagged defaultConfig = Ok ["name"; "tags"].
Proof.
  split; [vm_compute; reflexivity |].
  split; [vm_compute; reflexivity |].
  split; [eexists; split; vm_compute; reflexivity |].
  vm_compute; reflexivity.
Qed.

(** ** C4: timestamp fields *)

(** C4 (failing input).  Under the prefix [p], the generator emits the bare
    key [created] for the timestamp field, without the prefix, while the
    flattener stores the same field at [p.created].  The timestamp's own
    fields are not visited: one path is emitted. *)
Theorem C4_timestamp_path_lacks_prefix :
  GenerateFieldNames "p" event defaultConfig = Ok ["created"]
  /\ FlattenNestedStructs event "p" ∅
     = Ok (<["p.created" := "2024-01-02 03:04:05 +0000 UTC"]> ∅).
Proof. split; vm_compute; reflexivity. Qed.

(** ** C7: field names from headers *)

Lemma ensureValidIdentifier_cases (name : string) :
  ensureValidIdentifier name = if startsWithLetter name then name else "Field" +:+ name.
Proof. destruct name as [| c r]; simpl; [reflexivity |]. destruct (isLetter c); reflexivity. Qed.

Lemma ensureValidIdentifier_starts (name : string) :
  startsWithLetter (ensureValidIdentifier name) = true.
Proof.
  rewrite ensureValidIdentifier_cases.
  destruct (startsWithLetter name) eqn:E; [exact E | reflexivity].
Qed.

(** C7 (counterexample).  The record built from the header [Full Name] has
    no field called [FullName]. *)
Lemma C7_no_field_called_FullName :
  ~ (exists records, TableToStructs fullNameTable = Ok records
                     /\ map fieldNames records = [["FullName"; "Age"]]).
Proof.
  intros (records & Hrun & Hnames).
  vm_compute in Hrun. injection Hrun as <-.
  vm_compute in Hnames. discriminate.
Qed.

(** C7 (amended).  [TableToStructs] applied to the table
    [[["Full Name","Age"],["Ann","30"]]] returns exactly one record, whose
    fields are called [Fullname] and [Age] (title-casing lower-cases the
    letters after the first) and hold the strings [Ann] and [30].  In
    general the name is the header without its spaces, title-cased, and
    prefixed with [Field] exactly when that text is empty or does not start
    with an ASCII letter or an underscore; the name therefore always starts
    with such a character. *)
Theorem C7_table_record_and_field_names :
  (exists record, TableToStructs fullNameTable = Ok [record]
                  /\ fieldNames record = ["Fullname"; "Age"]
                  /\ fieldValues record = [VString "Ann"; VString "30"])
  /\ (forall header,
        let name := Title (GoStrings.RemoveSpaces header) in
        safeHeader header = if startsWithLetter name then name else "Field" +:+ name)
  /\ (forall header, startsWithLetter (safeHeader header) = true).
Proof.
  split; [| split].
  - eexists. split; [vm_compute; reflexivity |]. split; vm_compute; reflexivity.
  - intros header name. apply ensureValidIdentifier_cases.
  - intros header. apply ensureValidIdentifier_starts.
Qed.

(** ** Decimal digits *)

Module DigitFacts.
Import GoStrings.

#[local] Arguments Nat.div : simpl never.
#[local] Arguments Nat.modulo : simpl never.
#[local] Arguments Nat.add : simpl never.
#[local] Arguments ascii_of_nat : simpl never.

Lemma digit_char (d : nat) :
  (d < 10)%nat ->
  is_digit (ascii_of_nat (48 + d)) = true /\ code (ascii_of_nat (48 + d)) = (48 + d)%nat.
Proof.
  intros H. do 10 (destruct d as [| d]; [split; reflexivity |]). lia.
Qed.

Lemma digits_fuel_length_ge (f n : nat) (acc : string) :
  (String.length acc <= String.length (digits_fuel f n acc))%nat.
Proof.
  revert n acc. induction f as [| f IH]; intros n acc; simpl; [lia |].
  destruct (n / 10 =? 0)%nat; simpl; [lia |].
  specialize (IH (n / 10)%nat (String (ascii_of_nat (48 + n mod 10)) acc)).
  simpl in IH. lia.
Qed.

Lemma div10_lt (n f : nat) : (n < S f)%nat -> (n / 10 =? 0)%nat = false -> (n / 10 < f)%nat.
Proof.
  intros Hn Hd. apply Nat.eqb_neq in Hd.
  assert (n / 10 < n)%nat by (apply Nat.div_lt; [destruct n; [done | lia] | lia]).
  lia.
Qed.

(** The number of digits grows with the number, whatever fuel is enough
    for each. *)
Lemma digits_fuel_length_mono (f1 : nat) :
  forall f2 j m acc1 acc2,
    (j <= m)%nat -> (j < f1)%nat -> (m < f2)%nat ->
    (String.length acc1 <= String.length acc2)%nat ->
    (String.length (digits_fuel f1 j acc1) <= String.length (digits_fuel f2 m acc2))%nat.
Proof.
  induction f1 as [| f1 IH]; intros f2 j m acc1 acc2 Hjm Hj Hm Hacc; [lia |].
  destruct f2 as [| f2]; [lia |]. simpl.
  assert (Hdiv : (j / 10 <= m / 10)%nat) by (apply Nat.Div0.div_le_mono; lia).
  destruct (j / 10 =? 0)%nat eqn:Ej; destruct (m / 10 =? 0)%nat eqn:Em.
  - simpl. lia.
  - pose proof (digits_fuel_length_ge f2 (m / 10)
                  (String (ascii_of_nat (48 + m mod 10)) acc2)) as Hge.
    simpl in *. lia.
  - apply Nat.eqb_eq in Em. apply Nat.eqb_neq in Ej. lia.
  - apply IH; auto using div10_lt. simpl. lia.
Qed.

Lemma digits_length_mono (j m : nat) :
  (j <= m)%nat -> (String.length (digits j) <= String.length (digits m))%nat.
Proof. intros H. unfold digits. apply digits_fuel_length_mono; simpl; lia. Qed.

Lemma digits_length_pos (n : nat) : (1 <= String.length (digits n))%nat.
Proof.
  unfold digits. simpl. destruct (n / 10 =? 0)%nat; simpl; [lia |].
  pose proof (digits_fuel_length_ge n (n / 10)
                (String (ascii_of_nat (48 + n mod 10)) "")) as H.
  simpl in H. lia.
Qed.

(** Reading the digits back gives the number. *)
Lemma parse_digits_fuel (f : nat) :
  forall n acc, (n < f)%nat ->
    parse_digits (digits_fuel f n acc) 0 = parse_digits acc (Z.of_nat n).
Proof.
  induction f as [| f IH]; intros n acc Hn; [lia |]. cbn [digits_fuel].
  assert (Hd : (n mod 10 < 10)%nat) by (apply Nat.mod_upper_bound; lia).
  destruct (digit_char _ Hd) as [Hdig Hcode].
  destruct (n / 10 =? 0)%nat eqn:E.
  - cbn [parse_digits]. rewrite Hdig, Hcode. apply Nat.eqb_eq in E.
    f_equal. pose proof (Nat.div_mod_eq n 10). lia.
  - rewrite IH by auto using div10_lt. cbn [parse_digits]. rewrite Hdig, Hcode.
    f_equal. pose proof (Nat.div_mod_eq n 10). lia.
Qed.

Lemma parse_digits_zeros (k : nat) (s : string) :
  parse_digits (zeros k +:+ s) 0 = parse_digits s 0.
Proof. induction k as [| k IH]; simpl; [reflexivity | exact IH]. Qed.

Lemma length_app (s1 s2 : string) :
  String.length (s1 +:+ s2) = (String.length s1 + String.length s2)%nat.
Proof. induction s1 as [| c s1 IH]; simpl; [reflexivity | by rewrite IH]. Qed.

Lemma length_zeros (k : nat) : String.length (zeros k) = k.
Proof. induction k as [| k IH]; simpl; [reflexivity | by rewrite IH]. Qed.

Lemma Sprintf_0d_length (width j : nat) :
  (String.length (digits j) <= width)%nat -> String.length (Sprintf_0d width j) = width.
Proof. intros H. unfold Sprintf_0d. rewrite length_app, length_zeros. lia. Qed.

Lemma Sprintf_0d_nonempty (width j : nat) : Sprintf_0d width j <> "".
Proof.
  intros H. apply (f_equal String.length) in H.
  unfold Sprintf_0d in H. rewrite length_app in H. simpl in H.
  pose proof (digits_length_pos j). lia.
Qed.

Lemma Sprintf_0d_parse (width j : nat) :
  parse_unsigned (Sprintf_0d width j) = Some (Z.of_nat j).
Proof.
  assert (Hp : parse_digits (Sprintf_0d width j) 0 = Some (Z.of_nat j)).
  { unfold Sprintf_0d. rewrite parse_digits_zeros. unfold digits.
    rewrite parse_digits_fuel by lia. reflexivity. }
  pose proof (Sprintf_0d_nonempty width j) as Hne.
  unfold parse_unsigned. destruct (Sprintf_0d width j); [done | exact Hp].
Qed.


Lemma Itoa_of_nat (n : nat) : Itoa (Z.of_nat n) = digits n.
Proof.
  unfold Itoa. destruct (Z.ltb_spec (Z.of_nat n) 0) as [E | E]; [lia |].
  by rewrite Zabs2Nat.id.
Qed.

Lemma indexWidth_spec (len : nat) :
  indexWidth len = Nat.max 2 (String.length (digits (len - 1))).
Proof.
  unfold indexWidth. destruct len as [| n].
  - reflexivity.
  - replace (Z.of_nat (S n) - 1)%Z with (Z.of_nat n) by lia.
    rewrite Itoa_of_nat. replace (S n - 1)%nat with n by lia.
    destruct (String.length (digits n) <? 2)%nat eqn:E;
      [apply Nat.ltb_lt in E | apply Nat.ltb_ge in E]; lia.
Qed.

Lemma index_fits (len j : nat) :
  (j < len)%nat -> (String.length (digits j) <= indexWidth len)%nat.
Proof.
  intros H. rewrite indexWidth_spec.
  pose proof (digits_length_mono j (len - 1)). lia.
Qed.

End DigitFacts.

(** ** C5: index segments *)


Section SliceLoop.
Variable rec : value -> string -> gmap string string -> result (gmap string string).
Variables (width : nat) (keyPrefix : string).

Let key (j : nat) : string := joinPrefixKey keyPrefix (GoStrings.Sprintf_0d width j).



End SliceLoop.


(** ** The generator and its fuel *)

Section GeneratorMono.
Variables rec rec' : string -> value -> pkgConfig -> result (list string).
Hypothesis rec_le : forall prefix val cfg, res_le (rec prefix val cfg) (rec' prefix val cfg).

Lemma mapKeysLoop_mono prefix keys fields :
  res_le (mapKeysLoop rec prefix keys fields) (mapKeysLoop rec' prefix keys fields).
Proof.
  revert fields. induction keys as [| [key value] keys IH]; intros fields;
    cbn [mapKeysLoop]; [apply res_le_refl |].
  destruct (KindOf value); try apply IH; apply res_le_bind; auto.
Qed.

Lemma generateMapFieldNames_mono prefix val :
  res_le (generateMapFieldNames_with rec prefix val)
         (generateMapFieldNames_with rec' prefix val).
Proof.
  unfold generateMapFieldNames_with.
  destruct (DerefPointers val); try apply res_le_refl. apply mapKeysLoop_mono.
Qed.

Lemma firstCandidate_mono prefix cfg elems :
  res_le (firstCandidate rec prefix cfg elems) (firstCandidate rec' prefix cfg elems).
Proof.
  induction elems as [| c elems IH]; cbn [firstCandidate]; [apply res_le_refl |].
  destruct (isNilRef c); auto.
Qed.

Lemma mergeLoop_mono prefix cfg elems merged :
  res_le (mergeLoop rec prefix cfg elems merged) (mergeLoop rec' prefix cfg elems merged).
Proof.
  revert merged. induction elems as [| c elems IH]; intros merged;
    cbn [mergeLoop]; [apply res_le_refl |].
  destruct (isNilRef c); [apply IH |]. apply res_le_bind; auto.
Qed.

Lemma structField_mono prefix cfg field fieldVal :
  res_le (structField rec prefix cfg field fieldVal)
         (structField rec' prefix cfg field fieldVal).
Proof.
  unfold structField.
  repeat match goal with
         | |- res_le (if ?b then _ else _) _ => destruct b
         end; auto using res_le_refl, generateMapFieldNames_mono.
Qed.

Lemma structLoop_mono prefix cfg fs fields :
  res_le (structLoop rec prefix cfg fs fields) (structLoop rec' prefix cfg fs fields).
Proof.
  revert fields. induction fs as [| [field fieldVal] fs IH]; intros fields;
    cbn [structLoop]; [apply res_le_refl |].
  apply res_le_bind; auto using structField_mono.
Qed.

Lemma sequenceCase_mono prefix cfg elem elems :
  res_le (sequenceCase rec prefix cfg elem elems) (sequenceCase rec' prefix cfg elem elems).
Proof.
  unfold sequenceCase. destruct elems as [| c elems]; [apply res_le_refl |].
  apply res_le_bind; [apply firstCandidate_mono |]. intros baseline.
  apply res_le_bind; [apply mergeLoop_mono |]. intros [| f merged]; auto using res_le_refl.
Qed.

Lemma GenerateFieldNames_body_mono prefix val cfg :
  res_le (GenerateFieldNames_body rec prefix val cfg)
         (GenerateFieldNames_body rec' prefix val cfg).
Proof.
  unfold GenerateFieldNames_body.
  destruct (DerefPointers val) as [| | | | | ? [x |] | [x |] | | |] eqn:E;
    auto using res_le_refl, sequenceCase_mono, structLoop_mono.
  rewrite <- E. apply generateMapFieldNames_mono.
Qed.

End GeneratorMono.

(** More fuel never changes a result the generator has reached. *)
Lemma GenerateFieldNames_fuel_mono (n : nat) :
  forall m prefix val cfg, (n <= m)%nat ->
    res_le (GenerateFieldNames_fuel n prefix val cfg) (GenerateFieldNames_fuel m prefix val cfg).
Proof.
  induction n as [| n IH]; intros m prefix val cfg Hle; [by left |].
  destruct m as [| m]; [lia |]. cbn [GenerateFieldNames_fuel].
  apply GenerateFieldNames_body_mono. intros. apply IH. lia.
Qed.


Lemma height_DerefPointers (v : value) : (height (DerefPointers v) <= height v)%nat.
Proof.
  revert v. fix IH 1. intros [| | | | | elem [x |] | [x |] | | |]; cbn [DerefPointers]; try lia.
  - specialize (IH x). cbn [height]. lia.
  - cbn [height]. lia.
  - specialize (IH x). cbn [height]. lia.
  - cbn [height]. lia.
Qed.

Lemma list_max_elem (l : list nat) (x : nat) : x ∈ l -> (x <= list_max l)%nat.
Proof.
  induction 1 as [x l | x y l _ IH]; simpl; lia.
Qed.

Lemma height_elem (elems : list value) (c : value) :
  c ∈ elems -> (height c <= list_max (map height elems))%nat.
Proof. intros H. apply list_max_elem. apply list_elem_of_fmap. eauto. Qed.

(** ** C3: sequences of records of different shapes *)


Section SequenceLoops.
Variable rec : string -> value -> pkgConfig -> result (list string).
Variables (prefix : string) (cfg : pkgConfig).



End SequenceLoops.









(** ** Facts about [sort_Slice] *)

Section SortSlice.
Context {A : Type} (less : A -> A -> bool).

Let insert := fun racc x => insert_back less x racc.

Lemma insert_back_perm (x : A) (racc : list A) :
  Permutation (insert_back less x racc) (x :: racc).
Proof.
  induction racc as [| y r IH]; cbn [insert_back]; [reflexivity |].
  destruct (less x y); [| reflexivity].
  rewrite IH. apply perm_swap.
Qed.

Lemma fold_insert_perm (l : list A) :
  forall racc, Permutation (fold_left insert l racc) (l ++ racc).
Proof.
  induction l as [| x l IH]; intros racc; cbn [fold_left]; [reflexivity |].
  rewrite IH. unfold insert. rewrite insert_back_perm.
  symmetry. apply Permutation_middle.
Qed.

(** The sorted slice holds the same elements. *)
Lemma sort_Slice_perm (l : list A) : Permutation (sort_Slice less l) l.
Proof.
  unfold sort_Slice. rewrite <- Permutation_rev.
  etransitivity; [apply (fold_insert_perm l []) | by rewrite app_nil_r].
Qed.

Lemma sort_Slice_elem (l : list A) (x : A) : x ∈ sort_Slice less l <-> x ∈ l.
Proof. by rewrite sort_Slice_perm. Qed.

Lemma sort_Slice_NoDup (l : list A) : NoDup l -> NoDup (sort_Slice less l).
Proof. by rewrite sort_Slice_perm. Qed.

Section Asymmetric.
Hypothesis less_asym : forall a b, less a b = true -> less b a = false.

Lemma insert_back_HdRel (x y : A) (r : list A) :
  less x y = true -> HdRel (flip (inOrder less)) y r ->
  HdRel (flip (inOrder less)) y (insert_back less x r).
Proof.
  intros Hxy Hr. destruct r as [| z r]; cbn [insert_back].
  - constructor. by apply less_asym.
  - destruct (less x z).
    + constructor. by apply HdRel_inv in Hr.
    + constructor. by apply less_asym.
Qed.

Lemma insert_back_sorted (x : A) (racc : list A) :
  Sorted (flip (inOrder less)) racc -> Sorted (flip (inOrder less)) (insert_back less x racc).
Proof.
  induction racc as [| y r IH]; intros Hs; cbn [insert_back].
  - repeat constructor.
  - apply Sorted_inv in Hs as [Hr Hy].
    destruct (less x y) eqn:E.
    + constructor; [by apply IH | by apply insert_back_HdRel].
    + constructor; [by constructor | by constructor].
Qed.

Lemma fold_insert_sorted (l : list A) :
  forall racc, Sorted (flip (inOrder less)) racc -> Sorted (flip (inOrder less)) (fold_left insert l racc).
Proof.
  induction l as [| x l IH]; intros racc Hs; cbn [fold_left]; [exact Hs |].
  apply IH. by apply insert_back_sorted.
Qed.

Lemma Sorted_snoc (R : A -> A -> Prop) (l : list A) (x : A) :
  Sorted R l -> (forall y, last l = Some y -> R y x) -> Sorted R (l ++ [x]).
Proof.
  induction l as [| a l IH]; intros Hs Hlast; cbn [app].
  - repeat constructor.
  - apply Sorted_inv in Hs as [Hl Ha]. constructor.
    + apply IH; [exact Hl |]. intros y Hy. apply Hlast.
      destruct l; [discriminate | exact Hy].
    + destruct l as [| b l]; cbn [app].
      * constructor. by apply Hlast.
      * constructor. by apply HdRel_inv in Ha.
Qed.

Lemma Sorted_rev (R : A -> A -> Prop) (l : list A) :
  Sorted (flip R) l -> Sorted R (rev l).
Proof.
  induction l as [| a l IH]; intros Hs; cbn [rev]; [constructor |].
  apply Sorted_inv in Hs as [Hl Ha].
  apply Sorted_snoc; [by apply IH |].
  intros y Hy. destruct l as [| b l]; [discriminate |].
  apply HdRel_inv in Ha.
  cbn [rev] in Hy. rewrite last_snoc in Hy. by injection Hy as <-.
Qed.

(** No element of the sorted slice is less than its left neighbour. *)
Lemma sort_Slice_sorted (l : list A) : Sorted (inOrder less) (sort_Slice less l).
Proof.
  unfold sort_Slice. apply Sorted_rev, fold_insert_sorted. constructor.
Qed.

End Asymmetric.

(** An element that is less than every other one and that no other one
    is less than ends up in front. *)
Section First.
Variable h : A.

Lemma insert_back_last_keep (x : A) (racc : list A) :
  last racc = Some h -> less x h = false -> last (insert_back less x racc) = Some h.
Proof.
  induction racc as [| y r IH]; intros Hlast Hx; [discriminate |].
  cbn [insert_back]. destruct (less x y) eqn:E; [| exact Hlast].
  destruct r as [| z r].
  - injection Hlast as ->. congruence.
  - specialize (IH Hlast Hx).
    destruct (insert_back less x (z :: r)); [discriminate | exact IH].
Qed.

Lemma insert_back_to_end (racc : list A) :
  (forall y, y ∈ racc -> less h y = true) -> insert_back less h racc = racc ++ [h].
Proof.
  induction racc as [| y r IH]; intros Hall; cbn [insert_back]; [reflexivity |].
  rewrite Hall by left. cbn [app]. f_equal. apply IH. intros z Hz. apply Hall. by right.
Qed.

Lemma fold_insert_last (l : list A) :
  forall racc,
    (forall x, x ∈ l ++ racc -> x <> h -> less h x = true /\ less x h = false) ->
    NoDup l ->
    ((h ∈ l) /\ (h ∉ racc)) \/ ((h ∉ l) /\ last racc = Some h) ->
    last (fold_left insert l racc) = Some h.
Proof.
  induction l as [| x l IH]; intros racc Hless Hnd Hcase; cbn [fold_left].
  - destruct Hcase as [[Hin _] | [_ Hlast]]; [by apply not_elem_of_nil in Hin | exact Hlast].
  - apply NoDup_cons in Hnd as [Hxl Hnd].
    assert (Hless' : forall z, z ∈ l ++ insert racc x -> z <> h ->
                               less h z = true /\ less z h = false).
    { intros z Hz. apply Hless. unfold insert in Hz.
      rewrite elem_of_app, insert_back_perm in Hz. set_solver. }
    apply IH; [exact Hless' | exact Hnd |].
    destruct Hcase as [[Hin Hnot] | [Hnot Hlast]].
    + destruct (elem_of_cons l h x) as [[Heq | Hin'] _]; [exact Hin | |].
      * right. rewrite <- Heq in Hxl |- *. split; [exact Hxl |]. unfold insert.
        rewrite insert_back_to_end; [apply last_snoc |].
        intros y Hy. apply Hless; [set_solver |]. intros Hyh. by rewrite Hyh in Hy.
      * left. split; [exact Hin' |]. unfold insert. rewrite insert_back_perm.
        intros [Heq | Hr]%elem_of_cons; [by rewrite <- Heq in Hxl | done].
    + right. split; [set_solver |]. unfold insert.
      apply insert_back_last_keep; [exact Hlast |].
      apply Hless; set_solver.
Qed.

Lemma head_rev (l : list A) : head (rev l) = last l.
Proof.
  induction l as [| a l IH] using rev_ind; [reflexivity |].
  rewrite rev_app_distr, last_snoc. reflexivity.
Qed.

Lemma sort_Slice_first (l : list A) :
  h ∈ l -> NoDup l ->
  (forall x, x ∈ l -> x <> h -> less h x = true /\ less x h = false) ->
  head (sort_Slice less l) = Some h.
Proof.
  intros Hin Hnd Hless. unfold sort_Slice. rewrite head_rev.
  apply fold_insert_last; [| exact Hnd |].
  - intros x Hx. apply Hless. by rewrite app_nil_r in Hx.
  - left. split; [exact Hin | apply not_elem_of_nil].
Qed.

End First.

End SortSlice.

(** ** The comparator of the header groups *)

Lemma ltb_asym (a b : string) : String.ltb a b = true -> String.ltb b a = false.
Proof.
  unfold String.ltb. rewrite (String.compare_antisym b a).
  destruct (String.compare a b); simpl; congruence.
Qed.

Lemma ltb_irrefl (a : string) : String.ltb a a = false.
Proof.
  destruct (String.ltb a a) eqn:E; [| reflexivity].
  pose proof (ltb_asym _ _ E). congruence.
Qed.

Lemma ltb_false_le (a b : string) : String.ltb b a = false <-> String.le a b.
Proof.
  unfold String.le, String.leb, String.ltb. rewrite (String.compare_antisym b a).
  destruct (String.compare a b); simpl; split; intros; done.
Qed.

Lemma groupLess_asym (header a b : string) :
  groupLess header a b = true -> groupLess header b a = false.
Proof.
  unfold groupLess.
  destruct (String.eqb_spec a header) as [Ha | Ha],
           (String.eqb_spec b header) as [Hb | Hb]; cbn [andb negb]; try congruence.
  - subst.
    destruct (GoStrings.Atoi _) as [n |]; [| by rewrite ltb_irrefl].
    rewrite Z.eqb_refl. cbn [negb].
    destruct (GoStrings.SplitN2 _) as [| ? [| ? [| ? ?]]];
      rewrite ?Nat.ltb_irrefl, ?ltb_irrefl; congruence.
  - destruct (GoStrings.Atoi (hd "" (GoStrings.SplitN2 (GoStrings.TrimPrefix a _))))
      as [nA |];
      destruct (GoStrings.Atoi (hd "" (GoStrings.SplitN2 (GoStrings.TrimPrefix b _))))
      as [nB |]; try apply ltb_asym.
    rewrite (Z.eqb_sym nB nA).
    destruct (Z.eqb_spec nA nB) as [Hn | Hn]; cbn [negb].
    + destruct (GoStrings.SplitN2 (GoStrings.TrimPrefix a _)) as [| ? [| ? [| ? ?]]];
        destruct (GoStrings.SplitN2 (GoStrings.TrimPrefix b _)) as [| ? [| ? [| ? ?]]];
        cbn [length]; intros H; try apply ltb_asym; try done;
        apply Nat.ltb_lt in H; apply Nat.ltb_ge; lia.
    + intros H. apply Z.ltb_lt in H. apply Z.ltb_ge. lia.
Qed.

Lemma groupLess_header (header x : string) :
  x <> header -> groupLess header header x = true /\ groupLess header x header = false.
Proof.
  intros Hx. unfold groupLess. rewrite String.eqb_refl.
  destruct (String.eqb_spec x header); [done | by cbn].
Qed.

(** Where both first segments are numbers, a key may only stand directly
    before a key with the same or a larger number. *)
Lemma groupLess_numeric (header a b : string) (nA nB : Z) :
  a <> header ->
  groupLess header b a = false ->
  firstSegmentNumber header a = Some nA ->
  firstSegmentNumber header b = Some nB ->
  (nA <= nB)%Z.
Proof.
  unfold groupLess, firstSegmentNumber. intros Ha.
  destruct (String.eqb_spec a header) as [| _]; [done |].
  destruct (String.eqb_spec b header); cbn [negb andb]; [done |].
  intros Hless HnA HnB. rewrite HnA, HnB in Hless.
  destruct (Z.eqb_spec nB nA) as [-> | Hne]; [lia |].
  cbn [negb] in Hless. apply Z.ltb_ge in Hless. lia.
Qed.

(** ** C6: the assembled rows *)

Lemma mapKeys_NoDup (fieldMap : gmap string string) : NoDup (mapKeys fieldMap).
Proof. apply NoDup_fst_map_to_list. Qed.

Lemma mapKeys_elem (fieldMap : gmap string string) (key : string) :
  key ∈ mapKeys fieldMap <-> is_Some (fieldMap !! key).
Proof.
  unfold mapKeys. rewrite list_elem_of_fmap. split.
  - intros [[k v] [-> H]]. apply elem_of_map_to_list in H. by exists v.
  - intros [v H]. exists (key, v). split; [done | by apply elem_of_map_to_list].
Qed.

Lemma mapGet_lookup (fieldMap : gmap string string) (key : string) :
  is_Some (fieldMap !! key) -> fieldMap !! key = Some (mapGet fieldMap key).
Proof. intros [v H]. unfold mapGet. by rewrite H. Qed.

Lemma filter_elem {A} (f : A -> bool) (l : list A) (x : A) :
  x ∈ List.filter f l <-> x ∈ l /\ f x = true.
Proof. by rewrite !list_elem_of_In, filter_In. Qed.

Lemma filter_NoDup {A} (f : A -> bool) (l : list A) : NoDup l -> NoDup (List.filter f l).
Proof. rewrite !NoDup_ListNoDup. apply List.NoDup_filter. Qed.

Lemma Sorted_lookup {A} (R : A -> A -> Prop) (l : list A) :
  Sorted R l -> forall i a b, l !! i = Some a -> l !! S i = Some b -> R a b.
Proof.
  induction 1 as [| x l Hs IH Hhd]; intros i a b Ha Hb; [discriminate |].
  destruct i as [| i].
  - injection Ha as <-. destruct l as [| y l]; [discriminate |].
    injection Hb as <-. by apply HdRel_inv in Hhd.
  - exact (IH i a b Ha Hb).
Qed.

Lemma headerGroup_spec (fieldMap : gmap string string) (header : string) :
  groupOf fieldMap header (headerGroup fieldMap header).
Proof.
  unfold headerGroup, sortGroupKeys.
  set (keys := List.filter (fun key => matchesHeader key header) (mapKeys fieldMap)).
  assert (Hnd : NoDup keys) by (apply filter_NoDup, mapKeys_NoDup).
  assert (Hsorted : Sorted (fun a b => groupLess header b a = false)
                           (sort_Slice (groupLess header) keys))
    by (apply (sort_Slice_sorted (groupLess header)), groupLess_asym).
  split.
  - intros key. rewrite sort_Slice_elem. unfold keys.
    by rewrite filter_elem, mapKeys_elem.
  - by apply sort_Slice_NoDup.
  - intros Hin. apply sort_Slice_elem in Hin.
    apply sort_Slice_first; [exact Hin | exact Hnd |].
    intros x _ Hx. by apply groupLess_header.
  - exact Hsorted.
  - intros i a b nA nB Ha Hb Hne HnA HnB.
    eapply groupLess_numeric; [exact Hne | | exact HnA | exact HnB].
    exact (Sorted_lookup _ _ Hsorted i a b Ha Hb).
Qed.

Lemma leftoverKeys_spec (fieldMap : gmap string string) (headers : list string) :
  (forall key, key ∈ leftoverKeys fieldMap headers
               <-> is_Some (fieldMap !! key)
                   /\ forall header, header ∈ headers -> matchesHeader key header = false)
  /\ NoDup (leftoverKeys fieldMap headers)
  /\ StronglySorted String.le (leftoverKeys fieldMap headers).
Proof.
  unfold leftoverKeys. split; [| split].
  - intros key. rewrite sort_Slice_elem, filter_elem, mapKeys_elem.
    rewrite negb_true_iff, <- not_true_iff_false, existsb_exists.
    split; intros [Hk Hnone]; (split; [exact Hk |]).
    + intros header Hh. apply not_true_iff_false. intros Hm. apply Hnone.
      exists header. by rewrite <- list_elem_of_In.
    + intros (header & Hh & Hm). apply list_elem_of_In in Hh.
      specialize (Hnone header Hh). congruence.
  - apply sort_Slice_NoDup, filter_NoDup, mapKeys_NoDup.
  - apply Sorted_StronglySorted; [intros a b c; apply transitivity |].
    eapply Sorted_ind with (P := Sorted String.le);
      [constructor | | apply (sort_Slice_sorted String.ltb), ltb_asym].
    intros a l _ Hl Hhd. constructor; [exact Hl |].
    destruct Hhd as [| b l Hab]; constructor. by apply ltb_false_le.
Qed.


(** ** C8: from a table to records and back *)

Section HeaderBytes.
Import GoStrings.










Lemma matchesHeader_refl (key : string) : matchesHeader key key = true.
Proof. unfold matchesHeader. by rewrite String.eqb_refl. Qed.


End HeaderBytes.



Lemma rowMap_other (pairs : list (string * string)) :
  forall (fieldMap : gmap string string) key,
    key ∉ pairs.*1 -> rowMap pairs fieldMap !! key = fieldMap !! key.
Proof.
  induction pairs as [| [k v] pairs IH]; intros fieldMap key Hkey; [reflexivity |].
  cbn [rowMap fold_left fst snd]. fold (rowMap pairs (<[k := v]> fieldMap)).
  rewrite IH by set_solver. apply lookup_insert_ne. set_solver.
Qed.

Lemma rowMap_lookup (pairs : list (string * string)) :
  forall (fieldMap : gmap string string) key value,
    NoDup pairs.*1 -> (key, value) ∈ pairs -> rowMap pairs fieldMap !! key = Some value.
Proof.
  induction pairs as [| [k v] pairs IH]; intros fieldMap key value Hnd Hin;
    [by apply not_elem_of_nil in Hin |].
  cbn [rowMap fold_left fst snd]. fold (rowMap pairs (<[k := v]> fieldMap)).
  apply NoDup_cons in Hnd as [Hk Hnd].
  apply elem_of_cons in Hin as [[= -> ->] | Hin].
  - rewrite rowMap_other by exact Hk. apply lookup_insert_eq.
  - by apply IH.
Qed.

Lemma rowMap_keys (pairs : list (string * string)) :
  forall (fieldMap : gmap string string) key,
    is_Some (rowMap pairs fieldMap !! key) -> key ∈ pairs.*1 \/ is_Some (fieldMap !! key).
Proof.
  induction pairs as [| [k v] pairs IH]; intros fieldMap key; [by right |].
  cbn [rowMap fold_left fst snd]. fold (rowMap pairs (<[k := v]> fieldMap)).
  intros [Hin | Hsome]%IH; [left; set_solver |].
  destruct (decide (k = key)) as [-> | Hne]; [left; set_solver |].
  rewrite lookup_insert_ne in Hsome by exact Hne. by right.
Qed.




Lemma NoDup_constant (l : list string) (h : string) :
  NoDup l -> (forall x, x ∈ l -> x = h) -> h ∈ l -> l = [h].
Proof.
  intros Hnd Hall Hin. destruct l as [| a [| b l]].
  - by apply not_elem_of_nil in Hin.
  - f_equal. apply Hall. by left.
  - exfalso. apply NoDup_cons in Hnd as [Hab _].
    apply Hab. rewrite (Hall a), (Hall b); [by left | set_solver | set_solver].
Qed.

Lemma filter_none {A} (f : A -> bool) (l : list A) :
  (forall x, x ∈ l -> f x = false) -> List.filter f l = [].
Proof.
  induction l as [| a l IH]; intros H; [reflexivity |].
  cbn [List.filter]. rewrite H by left. apply IH. intros x Hx. apply H. by right.
Qed.

Lemma flat_map_singletons (f : string -> list string) (l : list string) :
  (forall x, x ∈ l -> f x = [x]) -> flat_map f l = l.
Proof.
  induction l as [| a l IH]; intros H; [reflexivity |].
  cbn [flat_map]. rewrite H by left. cbn. f_equal. apply IH. intros x Hx. apply H. by right.
Qed.








(** ** Enough fuel *)

Lemma bind_defined {A B} (r : result A) (k : A -> result B) :
  defined r -> (forall a, r = Ok a -> defined (k a)) -> defined (r ≫= k).
Proof. destruct r; cbn; intros Hr Hk; auto; by unfold defined. Qed.

Lemma height_field (fs : list (StructField * value)) (fv : StructField * value) :
  fv ∈ fs -> (height (snd fv) <= list_max (map (fun fv => height (snd fv)) fs))%nat.
Proof. intros H. apply list_max_elem, list_elem_of_fmap. eauto. Qed.

Lemma height_entry (entries : list (value * value)) (kv : value * value) :
  kv ∈ entries ->
  (height (snd kv)
   <= list_max (map (fun kv => Nat.max (height (fst kv)) (height (snd kv))) entries))%nat.
Proof.
  intros H.
  assert (Nat.max (height (fst kv)) (height (snd kv))
          <= list_max (map (fun kv => Nat.max (height (fst kv)) (height (snd kv))) entries))%nat
    by (apply list_max_elem, list_elem_of_fmap; eauto).
  lia.
Qed.

Lemma height_repeat (v : value) (len bound : nat) :
  (height v <= bound)%nat -> (list_max (map height (repeat v len)) <= bound)%nat.
Proof. intros H. induction len as [| len IH]; simpl; lia. Qed.

(** The zero value of a type is no higher than the type. *)
Lemma height_Zero (t : type) : (height (Zero t) <= theight t)%nat.
Proof.
  revert t. fix IH 1. intros [| | | name fields | elem | | key elem | elem | len elem];
    cbn [Zero height theight]; try lia.
  - apply le_n_S. induction fields as [| [f ft] fields IHfields]; [done |].
    cbn [map list_max fst snd]. specialize (IH ft). simpl in *. lia.
  - simpl. lia.
  - simpl. lia.
  - pose proof (height_repeat (Zero elem) len (theight elem) (IH elem)). lia.
Qed.

Section GeneratorFuel.
Variable rec : string -> value -> pkgConfig -> result (list string).
Variable n : nat.
Hypothesis rec_defined : forall prefix val cfg, (height val <= n)%nat -> defined (rec prefix val cfg).

Lemma mapKeysLoop_defined prefix keys fields :
  (forall kv, kv ∈ keys -> (height (snd kv) <= n)%nat) ->
  defined (mapKeysLoop rec prefix keys fields).
Proof.
  revert fields. induction keys as [| [key value] keys IH]; intros fields Hkeys;
    cbn [mapKeysLoop]; [done |].
  assert (Hrest : forall fields', defined (mapKeysLoop rec prefix keys fields'))
    by (intros; apply IH; intros kv Hkv; apply Hkeys; by right).
  assert (Hvalue : (height value <= n)%nat) by (apply (Hkeys (key, value)); by left).
  destruct (KindOf value); auto; apply bind_defined; auto.
Qed.

Lemma generateMapFieldNames_defined prefix val :
  (height val <= S n)%nat -> defined (generateMapFieldNames_with rec prefix val).
Proof.
  intros Hval. unfold generateMapFieldNames_with.
  pose proof (height_DerefPointers val) as Hd.
  destruct (DerefPointers val) as [| | | | | | | key elem entries | |]; try done.
  apply mapKeysLoop_defined. intros kv Hkv. apply sort_Slice_elem in Hkv.
  apply height_entry in Hkv. cbn [height] in Hd. lia.
Qed.

Lemma firstCandidate_defined prefix cfg elems :
  (forall c, c ∈ elems -> (height c <= n)%nat) ->
  defined (firstCandidate rec prefix cfg elems).
Proof.
  induction elems as [| c elems IH]; intros Helems; cbn [firstCandidate]; [done |].
  destruct (isNilRef c).
  - apply IH. intros c' Hc'. apply Helems. by right.
  - apply rec_defined. pose proof (height_DerefPointers c).
    specialize (Helems c (list_elem_of_here _ _)). lia.
Qed.

Lemma mergeLoop_defined prefix cfg elems merged :
  (forall c, c ∈ elems -> (height c <= n)%nat) ->
  defined (mergeLoop rec prefix cfg elems merged).
Proof.
  revert merged. induction elems as [| c elems IH]; intros merged Helems;
    cbn [mergeLoop]; [done |].
  assert (Hrest : forall merged', defined (mergeLoop rec prefix cfg elems merged'))
    by (intros; apply IH; intros c' Hc'; apply Helems; by right).
  destruct (isNilRef c); [apply Hrest |].
  apply bind_defined; [| auto].
  apply rec_defined. pose proof (height_DerefPointers c).
  specialize (Helems c (list_elem_of_here _ _)). lia.
Qed.

Lemma structField_defined prefix cfg field fieldVal :
  (height fieldVal <= n)%nat -> defined (structField rec prefix cfg field fieldVal).
Proof.
  intros Hval. unfold structField.
  repeat match goal with
         | |- defined (if ?b then _ else _) => destruct b
         end; auto; try done.
  apply generateMapFieldNames_defined. lia.
Qed.

Lemma structLoop_defined prefix cfg fs fields :
  (forall fv, fv ∈ fs -> (height (snd fv) <= n)%nat) ->
  defined (structLoop rec prefix cfg fs fields).
Proof.
  revert fields. induction fs as [| [field fieldVal] fs IH]; intros fields Hfs;
    cbn [structLoop]; [done |].
  apply bind_defined.
  - apply structField_defined. apply (Hfs (field, fieldVal)). by left.
  - intros sub _. apply IH. intros fv Hfv. apply Hfs. by right.
Qed.

Lemma sequenceCase_defined prefix cfg elem elems :
  (theight elem <= n)%nat ->
  (forall c, c ∈ elems -> (height c <= n)%nat) ->
  defined (sequenceCase rec prefix cfg elem elems).
Proof.
  intros Helem Helems. unfold sequenceCase. destruct elems as [| c0 elems0]; [done |].
  apply bind_defined; [by apply firstCandidate_defined |]. intros baseline _.
  apply bind_defined; [by apply mergeLoop_defined |]. intros [| f merged] _; [| done].
  apply rec_defined. pose proof (height_Zero elem). lia.
Qed.

Lemma GenerateFieldNames_body_defined prefix val cfg :
  (height val <= S n)%nat -> defined (GenerateFieldNames_body rec prefix val cfg).
Proof.
  intros Hval. unfold GenerateFieldNames_body.
  pose proof (height_DerefPointers val) as Hd.
  destruct (DerefPointers val) as [| | | | name str fs | ? [x |] | [x |] | key elem entries
                                  | elem elems | elem elems] eqn:E; try done.
  - apply structLoop_defined. intros fv Hfv. apply height_field in Hfv.
    cbn [height] in Hd. lia.
  - apply rec_defined. cbn [height] in Hd. lia.
  - apply rec_defined. cbn [height] in Hd. lia.
  - rewrite <- E in Hd |- *. apply generateMapFieldNames_defined. lia.
  - cbn [height] in Hd. apply sequenceCase_defined; [lia |].
    intros c Hc. apply height_elem in Hc. lia.
  - cbn [height] in Hd. apply sequenceCase_defined; [lia |].
    intros c Hc. apply height_elem in Hc. lia.
Qed.

End GeneratorFuel.

Lemma GenerateFieldNames_fuel_defined (n : nat) :
  forall prefix val cfg, (height val <= n)%nat ->
    defined (GenerateFieldNames_fuel n prefix val cfg).
Proof.
  induction n as [| n IH]; intros prefix val cfg Hval.
  - destruct (height_pos val) as [m Hm]. lia.
  - cbn [GenerateFieldNames_fuel]. by apply (GenerateFieldNames_body_defined _ n).
Qed.

(** The fuel the entry point supplies is enough: [GenerateFieldNames] always
    returns paths, an error or a panic. *)
Lemma GenerateFieldNames_total (prefix : string) (val : value) (cfg : pkgConfig) :
  defined (GenerateFieldNames prefix val cfg).
Proof. by apply GenerateFieldNames_fuel_defined. Qed.

Lemma SprintInterface_defined (v : value) : defined (SprintInterface v).
Proof. by destruct v. Qed.

Section FlattenerFuel.
Variable rec : value -> string -> gmap string string -> result (gmap string string).
Variable n : nat.
Hypothesis rec_defined :
  forall item prefix fieldMap, (height item <= n)%nat -> defined (rec item prefix fieldMap).

Lemma write_defined (v : value) (key : string) (fieldMap : gmap string string) :
  defined (s ← SprintInterface v; Ok (<[key := s]> fieldMap)).
Proof. apply bind_defined; [apply SprintInterface_defined | done]. Qed.

Lemma sliceLoop_defined width keyPrefix elems :
  forall j fieldMap,
    (forall elem, elem ∈ elems -> (height elem <= n)%nat) ->
    defined (sliceLoop rec width keyPrefix j elems fieldMap).
Proof.
  induction elems as [| elem elems IH]; intros j fieldMap Helems; cbn [sliceLoop]; [done |].
  apply bind_defined.
  - case_bool_decide; [| apply write_defined].
    apply rec_defined, Helems. by left.
  - intros fieldMap' _. apply IH. intros e He. apply Helems. by right.
Qed.

Lemma flattenSlice_defined elems keyPrefix fieldMap :
  (forall elem, elem ∈ elems -> (height elem <= n)%nat) ->
  defined (flattenSlice_with rec elems keyPrefix fieldMap).
Proof. apply sliceLoop_defined. Qed.

Lemma mapLoop_defined prefix keys :
  forall fieldMap,
    (forall kv, kv ∈ keys -> (height (snd kv) <= n)%nat) ->
    defined (mapLoop rec prefix keys fieldMap).
Proof.
  induction keys as [| [key value] keys IH]; intros fieldMap Hkeys; cbn [mapLoop]; [done |].
  assert (Hvalue : (height (DerefPointers value) <= n)%nat).
  { pose proof (height_DerefPointers value).
    specialize (Hkeys (key, value) (list_elem_of_here _ _)). cbn [snd] in Hkeys. lia. }
  apply bind_defined.
  - destruct (KindOf (DerefPointers value)); auto using write_defined.
  - intros fieldMap' _. apply IH. intros kv Hkv. apply Hkeys. by right.
Qed.

Lemma flattenMap_defined entries prefix fieldMap :
  (forall kv, kv ∈ entries -> (height (snd kv) <= n)%nat) ->
  defined (flattenMap_with rec entries prefix fieldMap).
Proof.
  intros Hentries. apply mapLoop_defined. intros kv Hkv.
  apply sort_Slice_elem in Hkv. by apply Hentries.
Qed.

Lemma flattenField_defined prefix field fieldVal fieldMap :
  (height fieldVal <= n)%nat ->
  defined (flattenField rec prefix field fieldVal fieldMap).
Proof.
  intros Hval. unfold flattenField.
  destruct (negb (IsExported field)); [done |].
  destruct fieldVal as [| | | | name str fs | elem [underlying |] | [dyn |]
                       | key elem entries | elem elems | elem elems];
    try done; try apply write_defined.
  - destruct (isTimeType _ && negb _); [apply write_defined |].
    destruct (shouldInline field); by apply rec_defined.
  - cbn [height] in Hval.
    destruct (KindOf underlying); try apply write_defined;
      try destruct (shouldInline field); apply rec_defined; lia.
  - cbn [height] in Hval. case_bool_decide; [| done]. apply rec_defined. lia.
  - destruct entries as [| kv0 entries0]; [done |].
    assert (Hentries : forall kv, kv ∈ kv0 :: entries0 -> (height (snd kv) <= n)%nat).
    { intros kv Hkv. apply height_entry in Hkv. cbn [height] in Hval. lia. }
    destruct (shouldInline field); by apply flattenMap_defined.
  - destruct elems as [| e0 elems0]; [done |].
    apply flattenSlice_defined. intros e He. apply height_elem in He.
    cbn [height] in Hval. lia.
Qed.

Lemma fieldsLoop_defined prefix fs :
  forall fieldMap,
    (forall fv, fv ∈ fs -> (height (snd fv) <= n)%nat) ->
    defined (fieldsLoop rec prefix fs fieldMap).
Proof.
  induction fs as [| [field fieldVal] fs IH]; intros fieldMap Hfs; cbn [fieldsLoop]; [done |].
  apply bind_defined.
  - apply flattenField_defined. apply (Hfs (field, fieldVal)). by left.
  - intros fieldMap' _. apply IH. intros fv Hfv. apply Hfs. by right.
Qed.

Lemma FlattenNestedStructs_body_defined item prefix fieldMap :
  (height item <= S n)%nat ->
  defined (FlattenNestedStructs_body rec item prefix fieldMap).
Proof.
  intros Hitem. unfold FlattenNestedStructs_body.
  pose proof (height_DerefPointers item) as Hd.
  destruct (DerefPointers item) as [| | | | name str fs | | | key elem entries
                                   | elem elems |]; try done; cbn [height] in Hd.
  - apply fieldsLoop_defined. intros fv Hfv. apply height_field in Hfv. lia.
  - apply flattenMap_defined. intros kv Hkv. apply height_entry in Hkv. lia.
  - apply flattenSlice_defined. intros e He. apply height_elem in He. lia.
Qed.

End FlattenerFuel.

Lemma FlattenNestedStructs_fuel_defined (n : nat) :
  forall item prefix fieldMap, (height item <= n)%nat ->
    defined (FlattenNestedStructs_fuel n item prefix fieldMap).
Proof.
  induction n as [| n IH]; intros item prefix fieldMap Hitem.
  - destruct (height_pos item) as [m Hm]. lia.
  - cbn [FlattenNestedStructs_fuel]. by apply (FlattenNestedStructs_body_defined _ n).
Qed.

(** The fuel the entry point supplies is enough: [FlattenNestedStructs]
    always returns a map, an error or a panic. *)
Lemma FlattenNestedStructs_total (item : value) (prefix : string)
      (fieldMap : gmap string string) :
  defined (FlattenNestedStructs item prefix fieldMap).
Proof. by apply FlattenNestedStructs_fuel_defined. Qed.


(** ** C10: neither [Generate] nor [Headers] *)




(** * Further properties of the package *)

(** ** Dereferencing *)




(** ** Joining keys *)

Lemma string_app_cons (c : ascii) (s t : string) : String c s +:+ t = String c (s +:+ t).
Proof. reflexivity. Qed.

Lemma string_app_assoc (s1 s2 s3 : string) : (s1 +:+ s2) +:+ s3 = s1 +:+ (s2 +:+ s3).
Proof.
  induction s1 as [| c s1 IH]; [reflexivity |].
  by rewrite !string_app_cons, IH.
Qed.

Lemma string_app_empty (s1 s2 : string) : s1 +:+ s2 = "" -> s1 = "".
Proof. by destruct s1. Qed.

Lemma joinPrefixKey_empty_l (key : string) : joinPrefixKey "" key = key.
Proof. unfold joinPrefixKey. cbn. by destruct (String.eqb_spec key "") as [-> |]. Qed.

Lemma joinPrefixKey_empty_r (prefix : string) : joinPrefixKey prefix "" = prefix.
Proof. unfold joinPrefixKey. cbn. by destruct (String.eqb_spec prefix "") as [-> |]. Qed.

Lemma joinPrefixKey_nonempty (prefix key : string) :
  prefix <> "" -> key <> "" -> joinPrefixKey prefix key = prefix +:+ "." +:+ key.
Proof.
  intros Hp Hk. unfold joinPrefixKey.
  destruct (String.eqb_spec prefix ""); [done |].
  destruct (String.eqb_spec key ""); [done | reflexivity].
Qed.

(** X2.  [joinPrefixKey] has the empty key as unit on both sides and is
    associative: joining segment by segment gives the same path however the
    segments are grouped, and an empty segment never leaves a stray dot. *)
Theorem X2_joinPrefixKey_is_a_monoid (a b c : string) :
  joinPrefixKey "" a = a
  /\ joinPrefixKey a "" = a
  /\ joinPrefixKey (joinPrefixKey a b) c = joinPrefixKey a (joinPrefixKey b c).
Proof.
  split; [apply joinPrefixKey_empty_l |]. split; [apply joinPrefixKey_empty_r |].
  destruct (decide (a = "")) as [-> | Ha]; [by rewrite !joinPrefixKey_empty_l |].
  destruct (decide (b = "")) as [-> | Hb];
    [by rewrite joinPrefixKey_empty_l, joinPrefixKey_empty_r |].
  destruct (decide (c = "")) as [-> | Hc]; [by rewrite !joinPrefixKey_empty_r |].
  rewrite (joinPrefixKey_nonempty a b), (joinPrefixKey_nonempty b c) by done.
  rewrite !joinPrefixKey_nonempty; try done.
  - by rewrite !string_app_assoc.
  - intros H. by apply string_app_empty in H.
  - intros H. by apply string_app_empty in H.
Qed.

(** ** Keys of fields *)





(** ** The comparator of the header groups, again *)

(** X4.  The comparator of [sortGroupKeys] is irreflexive and asymmetric,
    but it is not transitive: with the header [h], the key [h.9] is less
    than [h.10] (as numbers), [h.10] less than [h.1x] and [h.1x] less than
    [h.9] (as text).  It is therefore not the strict weak order that
    [sort.Slice] asks for, and the order of such a group depends on the
    order in which the map was visited. *)
Theorem X4_groupLess_is_strict_but_not_transitive :
  (forall header a, groupLess header a a = false)
  /\ (forall header a b, groupLess header a b = true -> groupLess header b a = false)
  /\ (exists header a b c,
        groupLess header a b = true /\ groupLess header b c = true
        /\ groupLess header c a = true
        /\ sortGroupKeys header [a; b; c] <> sortGroupKeys header [b; c; a]).
Proof.
  split; [| split].
  - intros header a. destruct (groupLess header a a) eqn:E; [| reflexivity].
    pose proof (groupLess_asym _ _ _ E). congruence.
  - apply groupLess_asym.
  - exists "h", "h.9", "h.10", "h.1x". repeat split; vm_compute; congruence.
Qed.

(** ** Nothing is lost in the assembly *)

Lemma mapToSlice_rows_iff (fieldMap : gmap string string) (headers : list string)
      (key value : string) :
  (key, value) ∈ fst (mapToSliceAndUpdateFields fieldMap headers)
  <-> fieldMap !! key = Some value.
Proof.
  destruct (leftoverKeys_spec fieldMap headers) as (Hleft & _ & _).
  unfold mapToSliceAndUpdateFields. cbn [fst].
  rewrite list_elem_of_fmap. split.
  - intros (k & [= -> ->] & Hk). apply mapGet_lookup.
    apply elem_of_app in Hk as [Hk | Hk]; [| by apply Hleft in Hk as [? _]].
    apply list_elem_of_In, in_flat_map in Hk as (header & _ & Hk).
    apply list_elem_of_In in Hk.
    by apply (group_keys _ _ _ (headerGroup_spec fieldMap header)) in Hk as [? _].
  - intros Hkv. exists key. split; [unfold mapGet; by rewrite Hkv |].
    apply elem_of_app.
    destruct (existsb (matchesHeader key) headers) eqn:E.
    + left. apply existsb_exists in E as (header & Hh & Hm).
      apply list_elem_of_In, in_flat_map. exists header. split; [exact Hh |].
      apply list_elem_of_In, (group_keys _ _ _ (headerGroup_spec fieldMap header)).
      split; [by exists value | exact Hm].
    + right. apply Hleft. split; [by exists value |].
      intros header Hh. apply not_true_iff_false. intros Hm.
      apply not_true_iff_false in E. apply E, existsb_exists.
      exists header. split; [by apply list_elem_of_In | exact Hm].
Qed.

(** X5.  [mapToSliceAndUpdateFields] returns every entry of the field map
    and only entries of the field map: a key that some header matches is in
    that header's group, any other key is among the leftovers.  Without
    headers every entry is returned exactly once, in lexicographic order of
    the keys. *)
Theorem X5_assembly_returns_every_entry (fieldMap : gmap string string)
        (headers : list string) :
  (forall key value,
     (key, value) ∈ fst (mapToSliceAndUpdateFields fieldMap headers)
     <-> fieldMap !! key = Some value)
  /\ NoDup (snd (mapToSliceAndUpdateFields fieldMap []))
  /\ StronglySorted String.le (snd (mapToSliceAndUpdateFields fieldMap [])).
Proof.
  split; [intros; apply mapToSlice_rows_iff |].
  unfold mapToSliceAndUpdateFields. cbn [snd flat_map app].
  destruct (leftoverKeys_spec fieldMap []) as (_ & Hnd & Hsorted). by split.
Qed.

(** ** Edges of the generator *)

(** X6.  What [GenerateFieldNames] does at the leaves: a value that
    dereferences to nothing (a nil pointer or a nil interface, however
    deeply wrapped) yields the prefix itself as its only path, not an empty
    list; a scalar (bool, integer, string) is refused with an error. *)
Theorem X6_GenerateFieldNames_on_nil_and_scalars (prefix : string) (val : value)
        (cfg : pkgConfig) :
  (DerefPointers val = VInvalid -> GenerateFieldNames prefix val cfg = Ok [prefix])
  /\ (KindOf (DerefPointers val) = Bool \/ KindOf (DerefPointers val) = Int
      \/ KindOf (DerefPointers val) = String_ ->
      GenerateFieldNames prefix val cfg
      = Err ("GenerateFieldNames: unsupported input type: "
             +:+ KindString (KindOf (DerefPointers val)))).
Proof.
  unfold GenerateFieldNames. destruct (height_pos val) as [n ->].
  cbn [GenerateFieldNames_fuel]. unfold GenerateFieldNames_body. split.
  - intros ->. reflexivity.
  - destruct (DerefPointers val); cbn [KindOf]; intros [H | [H | H]];
      try discriminate; reflexivity.
Qed.

(** ** What a successful [TableToStructs] tells *)



(** ** The flattener and its fuel *)

Section FlattenerMono.
Variables rec rec' : value -> string -> gmap string string -> result (gmap string string).
Hypothesis rec_le : forall item prefix fieldMap,
    res_le (rec item prefix fieldMap) (rec' item prefix fieldMap).

Lemma sliceLoop_mono width keyPrefix elems :
  forall j fieldMap,
    res_le (sliceLoop rec width keyPrefix j elems fieldMap)
           (sliceLoop rec' width keyPrefix j elems fieldMap).
Proof.
  induction elems as [| elem elems IH]; intros j fieldMap; cbn [sliceLoop];
    [apply res_le_refl |].
  apply res_le_bind; [| auto]. case_bool_decide; auto using res_le_refl.
Qed.

Lemma mapLoop_mono prefix keys :
  forall fieldMap,
    res_le (mapLoop rec prefix keys fieldMap) (mapLoop rec' prefix keys fieldMap).
Proof.
  induction keys as [| [key value] keys IH]; intros fieldMap; cbn [mapLoop];
    [apply res_le_refl |].
  apply res_le_bind; [| auto]. destruct (KindOf (DerefPointers value)); auto using res_le_refl.
Qed.

Lemma flattenField_mono prefix field fieldVal fieldMap :
  res_le (flattenField rec prefix field fieldVal fieldMap)
         (flattenField rec' prefix field fieldVal fieldMap).
Proof.
  unfold flattenField, flattenSlice_with, flattenMap_with.
  destruct (negb (IsExported field)); [apply res_le_refl |].
  destruct fieldVal as [| | | | name str fs | elem [underlying |] | [dyn |]
                       | key elem entries | elem elems | elem elems];
    try apply res_le_refl.
  - repeat match goal with
           | |- res_le (if ?b then _ else _) _ => destruct b
           end; auto using res_le_refl.
  - destruct (KindOf underlying); try apply res_le_refl;
      try destruct (shouldInline field); apply rec_le.
  - case_bool_decide; auto using res_le_refl.
  - destruct entries; [apply res_le_refl |].
    destruct (shouldInline field); apply mapLoop_mono.
  - destruct elems; [apply res_le_refl |]. apply sliceLoop_mono.
Qed.

Lemma fieldsLoop_mono prefix fs :
  forall fieldMap,
    res_le (fieldsLoop rec prefix fs fieldMap) (fieldsLoop rec' prefix fs fieldMap).
Proof.
  induction fs as [| [field fieldVal] fs IH]; intros fieldMap; cbn [fieldsLoop];
    [apply res_le_refl |].
  apply res_le_bind; auto using flattenField_mono.
Qed.

Lemma FlattenNestedStructs_body_mono item prefix fieldMap :
  res_le (FlattenNestedStructs_body rec item prefix fieldMap)
         (FlattenNestedStructs_body rec' item prefix fieldMap).
Proof.
  unfold FlattenNestedStructs_body, flattenSlice_with, flattenMap_with.
  destruct (DerefPointers item);
    auto using res_le_refl, fieldsLoop_mono, mapLoop_mono, sliceLoop_mono.
Qed.

End FlattenerMono.

Lemma FlattenNestedStructs_fuel_mono (n : nat) :
  forall m item prefix fieldMap, (n <= m)%nat ->
    res_le (FlattenNestedStructs_fuel n item prefix fieldMap)
           (FlattenNestedStructs_fuel m item prefix fieldMap).
Proof.
  induction n as [| n IH]; intros m item prefix fieldMap Hle; [by left |].
  destruct m as [| m]; [lia |]. cbn [FlattenNestedStructs_fuel].
  apply FlattenNestedStructs_body_mono. intros. apply IH. lia.
Qed.

(** Any fuel above the height of the input gives the result of the entry
    point. *)
Lemma GenerateFieldNames_fuel_enough (n : nat) prefix val cfg :
  (height val <= n)%nat ->
  GenerateFieldNames_fuel n prefix val cfg = GenerateFieldNames prefix val cfg.
Proof.
  intros Hle.
  destruct (GenerateFieldNames_fuel_mono (height val) n prefix val cfg Hle) as [Hout | Heq].
  - by destruct (GenerateFieldNames_total prefix val cfg).
  - symmetry. exact Heq.
Qed.

Lemma FlattenNestedStructs_fuel_enough (n : nat) item prefix fieldMap :
  (height item <= n)%nat ->
  FlattenNestedStructs_fuel n item prefix fieldMap
  = FlattenNestedStructs item prefix fieldMap.
Proof.
  intros Hle.
  destruct (FlattenNestedStructs_fuel_mono (height item) n item prefix fieldMap Hle)
    as [Hout | Heq].
  - by destruct (FlattenNestedStructs_total item prefix fieldMap).
  - symmetry. exact Heq.
Qed.

(** ** Fields that are skipped *)

Lemma structLoop_skips_nil
      (rec : string -> value -> pkgConfig -> result (list string))
      (prefix : string) (cfg : pkgConfig) (fs : list (StructField * value)) :
  ExcludeNil cfg = true ->
  forall fields,
    structLoop rec prefix cfg fs fields
    = structLoop rec prefix cfg
                 (List.filter (fun fv => negb (isNilRef (snd fv))) fs) fields.
Proof.
  intros Hcfg. induction fs as [| [field fieldVal] fs IH]; intros fields; [reflexivity |].
  cbn [List.filter snd]. destruct (isNilRef fieldVal) eqn:Enil; cbn [negb].
  - cbn [structLoop]. unfold structField. rewrite Hcfg, Enil.
    assert (Htime : isTimeType fieldVal = false) by (by destruct fieldVal as [| | | | | ? [] | [] | | |]).
    rewrite Htime. cbn [andb].
    destruct (String.eqb _ "-"); cbn; rewrite app_nil_r; apply IH.
  - cbn [structLoop]. destruct (structField rec prefix cfg field fieldVal); cbn; auto.
Qed.

(** X8.  With [ExcludeNil] set, the fields of a struct that hold a nil
    pointer or a nil interface contribute nothing to the generated paths:
    the result is that of the struct without those fields. *)
Theorem X8_ExcludeNil_drops_nil_fields (prefix name : string) (str : option string)
        (fs : list (StructField * value)) (cfg : pkgConfig) :
  ExcludeNil cfg = true ->
  GenerateFieldNames prefix (VStruct name str fs) cfg
  = GenerateFieldNames prefix
      (VStruct name str (List.filter (fun fv => negb (isNilRef (snd fv))) fs)) cfg.
Proof.
  intros Hcfg.
  set (kept := List.filter (fun fv => negb (isNilRef (snd fv))) fs).
  set (n := Nat.max (height (VStruct name str fs)) (height (VStruct name str kept))).
  rewrite <- (GenerateFieldNames_fuel_enough (S n) prefix (VStruct name str fs)) by lia.
  rewrite <- (GenerateFieldNames_fuel_enough (S n) prefix (VStruct name str kept)) by lia.
  cbn [GenerateFieldNames_fuel]. unfold GenerateFieldNames_body. cbn [DerefPointers].
  by apply structLoop_skips_nil.
Qed.

Lemma X8_ExcludeNil_witness :
  GenerateFieldNames "" ownerless (WithExcludeNil defaultConfig)
  = GenerateFieldNames ""
      (VStruct "main.Asset" None [ (exportedField "ID" (jsonTag "id"), VInt 7) ])
      (WithExcludeNil defaultConfig).
Proof.
  exact (X8_ExcludeNil_drops_nil_fields "" "main.Asset" None
           [ (exportedField "Owner" (jsonTag "owner"), VPtr (TStruct "main.Person" []) None);
             (exportedField "ID" (jsonTag "id"), VInt 7) ]
           (WithExcludeNil defaultConfig) eq_refl).
Defined.

Lemma fieldsLoop_skips_unexported
      (rec : value -> string -> gmap string string -> result (gmap string string))
      (prefix : string) (fs : list (StructField * value)) :
  forall fieldMap,
    fieldsLoop rec prefix fs fieldMap
    = fieldsLoop rec prefix (List.filter (fun fv => IsExported (fst fv)) fs) fieldMap.
Proof.
  induction fs as [| [field fieldVal] fs IH]; intros fieldMap; [reflexivity |].
  cbn [List.filter fst]. destruct (IsExported field) eqn:E.
  - cbn [fieldsLoop]. destruct (flattenField rec prefix field fieldVal fieldMap); cbn; auto.
  - cbn [fieldsLoop]. unfold flattenField. rewrite E. cbn. apply IH.
Qed.

(** X9.  [FlattenNestedStructs] never reads an unexported field: flattening
    a struct gives the result of flattening it without its unexported
    fields, whatever they hold. *)
Theorem X9_flattening_ignores_unexported_fields (name : string) (str : option string)
        (fs : list (StructField * value)) (prefix : string)
        (fieldMap : gmap string string) :
  FlattenNestedStructs (VStruct name str fs) prefix fieldMap
  = FlattenNestedStructs
      (VStruct name str (List.filter (fun fv => IsExported (fst fv)) fs)) prefix fieldMap.
Proof.
  set (kept := List.filter (fun fv => IsExported (fst fv)) fs).
  set (n := Nat.max (height (VStruct name str fs)) (height (VStruct name str kept))).
  rewrite <- (FlattenNestedStructs_fuel_enough (S n) (VStruct name str fs)) by lia.
  rewrite <- (FlattenNestedStructs_fuel_enough (S n) (VStruct name str kept)) by lia.
  cbn [FlattenNestedStructs_fuel]. unfold FlattenNestedStructs_body. cbn [DerefPointers].
  apply fieldsLoop_skips_unexported.
Qed.

(** ** Maps are walked in key order *)

Lemma sorted_perm_unique {A} (R : A -> A -> Prop) (l1 : list A) :
  forall l2,
    (forall a b, a ∈ l1 -> b ∈ l1 -> R a b -> R b a -> a = b) ->
    StronglySorted R l1 -> StronglySorted R l2 -> Permutation l1 l2 -> l1 = l2.
Proof.
  induction l1 as [| a l1 IH]; intros l2 Hanti Hs1 Hs2 Hperm.
  - by apply Permutation_nil in Hperm.
  - destruct l2 as [| b l2]; [by apply Permutation_sym, Permutation_nil in Hperm |].
    apply StronglySorted_inv in Hs1 as [Hs1 Ha].
    apply StronglySorted_inv in Hs2 as [Hs2 Hb].
    rewrite List.Forall_forall in Ha, Hb.
    assert (Hab : a = b).
    { assert (Hain : a ∈ b :: l2) by (rewrite <- Hperm; left).
      assert (Hbin : b ∈ a :: l1) by (rewrite Hperm; left).
      apply elem_of_cons in Hain as [-> | Hain]; [reflexivity |].
      apply elem_of_cons in Hbin as [-> | Hbin]; [reflexivity |].
      apply Hanti; [left | by right | |].
      - apply Ha. by apply list_elem_of_In.
      - apply Hb. by apply list_elem_of_In. }
    subst b. f_equal. apply IH; [| exact Hs1 | exact Hs2 | by apply Permutation_cons_inv in Hperm].
    intros x y Hx Hy. apply Hanti; by right.
Qed.

Lemma NoDup_fmap_elem_inj {A B} (f : A -> B) (l : list A) (x y : A) :
  NoDup (map f l) -> x ∈ l -> y ∈ l -> f x = f y -> x = y.
Proof.
  induction l as [| a l IH]; intros Hnd Hx Hy Hf; [by apply not_elem_of_nil in Hx |].
  cbn [map] in Hnd. apply NoDup_cons in Hnd as [Ha Hnd].
  apply elem_of_cons in Hx as [-> | Hx]; apply elem_of_cons in Hy as [-> | Hy]; auto.
  - exfalso. apply Ha. rewrite Hf. apply list_elem_of_fmap. eauto.
  - exfalso. apply Ha. rewrite <- Hf. apply list_elem_of_fmap. eauto.
Qed.

(** The order of the keys of a map, as [generateMapFieldNames] and
    [flattenMap] compare them. *)
Lemma sort_by_key_perm (entries entries' : list (value * value)) :
  Permutation entries entries' ->
  NoDup (map (fun kv => Sprint (fst kv)) entries) ->
  sort_Slice (fun a b => String.ltb (Sprint (fst a)) (Sprint (fst b))) entries
  = sort_Slice (fun a b => String.ltb (Sprint (fst a)) (Sprint (fst b))) entries'.
Proof.
  intros Hperm Hnd.
  set (less := fun a b : value * value => String.ltb (Sprint (fst a)) (Sprint (fst b))).
  assert (Hsorted : forall l, StronglySorted (inOrder less) (sort_Slice less l)).
  { intros l. apply Sorted_StronglySorted.
    - intros a b c Hab Hbc. unfold inOrder, less in *.
      apply ltb_false_le. apply ltb_false_le in Hab, Hbc. by etransitivity.
    - apply sort_Slice_sorted. intros a b. apply ltb_asym. }
  apply (sorted_perm_unique (inOrder less)); auto.
  - intros a b Ha Hb Hab Hba. apply sort_Slice_elem in Ha, Hb.
    apply (NoDup_fmap_elem_inj (fun kv => Sprint (fst kv)) entries); auto.
    unfold inOrder, less in *. apply ltb_false_le in Hab, Hba.
    by apply (anti_symm String.le).
  - by rewrite !sort_Slice_perm.
Qed.

(** X10.  The order in which a map is visited does not show in the output:
    for a map whose keys print differently, [GenerateFieldNames] and
    [FlattenNestedStructs] give the same result for every order of its
    entries. *)
Theorem X10_map_iteration_order_is_irrelevant
        (key elem : type) (entries entries' : list (value * value))
        (prefix : string) (cfg : pkgConfig) (fieldMap : gmap string string) :
  Permutation entries entries' ->
  NoDup (map (fun kv => Sprint (fst kv)) entries) ->
  GenerateFieldNames prefix (VMap key elem entries) cfg
  = GenerateFieldNames prefix (VMap key elem entries') cfg
  /\ FlattenNestedStructs (VMap key elem entries) prefix fieldMap
     = FlattenNestedStructs (VMap key elem entries') prefix fieldMap.
Proof.
  intros Hperm Hnd.
  pose proof (sort_by_key_perm entries entries' Hperm Hnd) as Hsort.
  set (n := Nat.max (height (VMap key elem entries)) (height (VMap key elem entries'))).
  split.
  - rewrite <- (GenerateFieldNames_fuel_enough (S n) prefix (VMap key elem entries)) by lia.
    rewrite <- (GenerateFieldNames_fuel_enough (S n) prefix (VMap key elem entries')) by lia.
    cbn [GenerateFieldNames_fuel]. unfold GenerateFieldNames_body, generateMapFieldNames_with.
    cbn [DerefPointers]. by rewrite Hsort.
  - rewrite <- (FlattenNestedStructs_fuel_enough (S n) (VMap key elem entries)) by lia.
    rewrite <- (FlattenNestedStructs_fuel_enough (S n) (VMap key elem entries')) by lia.
    cbn [FlattenNestedStructs_fuel]. unfold FlattenNestedStructs_body, flattenMap_with.
    cbn [DerefPointers]. by rewrite Hsort.
Qed.

Lemma X10_map_order_witness :
  GenerateFieldNames "m" smallMap defaultConfig
  = GenerateFieldNames "m" smallMapOtherOrder defaultConfig
  /\ FlattenNestedStructs smallMap "m" ∅ = FlattenNestedStructs smallMapOtherOrder "m" ∅.
Proof.
  apply (X10_map_iteration_order_is_irrelevant TString TInt
           [ (VString "b", VInt 2); (VString "a", VInt 1) ]
           [ (VString "a", VInt 1); (VString "b", VInt 2) ]).
  - apply perm_swap.
  - vm_compute. repeat constructor; set_solver.
Defined.

(** ** Where the flattener writes *)

Lemma bind_Ok {A B} (r : result A) (k : A -> result B) (b : B) :
  r ≫= k = Ok b -> exists a, r = Ok a /\ k a = Ok b.
Proof. destruct r as [a | | |]; cbn; intros H; try discriminate. eauto. Qed.

Lemma prefix_app (s t : string) : String.prefix s (s +:+ t) = true.
Proof.
  induction s as [| c s IH]; [by destruct t |].
  rewrite string_app_cons. cbn [String.prefix].
  destruct (ascii_dec c c); [exact IH | done].
Qed.

Lemma prefix_trans (a : string) :
  forall b c, String.prefix a b = true -> String.prefix b c = true -> String.prefix a c = true.
Proof.
  induction a as [| x a IH]; intros [| y b] [| z c]; cbn [String.prefix]; try done.
  destruct (ascii_dec x y) as [-> | _]; [| done].
  destruct (ascii_dec y z) as [-> | _]; [| done].
  destruct (ascii_dec z z); [apply IH | done].
Qed.

Lemma underPrefix_join (prefix key : string) : underPrefix prefix (joinPrefixKey prefix key).
Proof.
  destruct (decide (prefix = "")) as [-> | Hp]; [by left |]. right.
  destruct (decide (key = "")) as [-> | Hk].
  - rewrite joinPrefixKey_empty_r. apply matchesHeader_refl.
  - rewrite joinPrefixKey_nonempty by done. unfold matchesHeader, GoStrings.HasPrefix.
    rewrite <- string_app_assoc, prefix_app. apply orb_true_r.
Qed.

Lemma underPrefix_trans (prefix segment key : string) :
  underPrefix (joinPrefixKey prefix segment) key -> underPrefix prefix key.
Proof.
  destruct (decide (prefix = "")) as [-> | Hp]; [by left |].
  destruct (decide (segment = "")) as [-> | Hs]; [by rewrite joinPrefixKey_empty_r |].
  rewrite joinPrefixKey_nonempty by done.
  intros [Hempty | Hmatch]; [by apply string_app_empty in Hempty |]. right.
  unfold matchesHeader, GoStrings.HasPrefix in *.
  apply orb_true_iff. right.
  apply orb_true_iff in Hmatch as [Heq | Hpre].
  - apply String.eqb_eq in Heq as ->. rewrite <- string_app_assoc. apply prefix_app.
  - eapply prefix_trans; [| exact Hpre].
    rewrite <- (string_app_assoc prefix "." segment), string_app_assoc. apply prefix_app.
Qed.

Lemma growsUnder_refl (prefix : string) (fieldMap : gmap string string) :
  growsUnder prefix fieldMap fieldMap.
Proof. split; auto. Qed.

Lemma growsUnder_trans (prefix : string) (m1 m2 m3 : gmap string string) :
  growsUnder prefix m1 m2 -> growsUnder prefix m2 m3 -> growsUnder prefix m1 m3.
Proof.
  intros [H12 H21] [H23 H32]. split; [auto |].
  intros key Hk. destruct (H32 key Hk) as [Hk2 | Hu]; auto.
Qed.

Lemma growsUnder_weaken (prefix segment : string) (m m' : gmap string string) :
  growsUnder (joinPrefixKey prefix segment) m m' -> growsUnder prefix m m'.
Proof.
  intros [Hkeep Hnew]. split; [exact Hkeep |].
  intros key Hk. destruct (Hnew key Hk) as [? | Hu]; eauto using underPrefix_trans.
Qed.

Lemma growsUnder_insert (prefix key value : string) (m : gmap string string) :
  underPrefix prefix key -> growsUnder prefix m (<[key := value]> m).
Proof.
  intros Hu. split; intros k Hk.
  - destruct (decide (key = k)) as [-> | Hne];
      [rewrite lookup_insert_eq; eauto | by rewrite lookup_insert_ne].
  - destruct (decide (key = k)) as [<- | Hne]; [by right |].
    rewrite lookup_insert_ne in Hk by done. by left.
Qed.

Section FlattenerKeys.
Variable rec : value -> string -> gmap string string -> result (gmap string string).
Hypothesis rec_grows : forall item prefix m m',
    rec item prefix m = Ok m' -> growsUnder prefix m m'.

Lemma write_grows (prefix key : string) (v : value) (m m' : gmap string string) :
  underPrefix prefix key ->
  (s ← SprintInterface v; Ok (<[key := s]> m)) = Ok m' -> growsUnder prefix m m'.
Proof.
  intros Hu Hrun. apply bind_Ok in Hrun as (s & _ & [= <-]). by apply growsUnder_insert.
Qed.

Lemma sliceLoop_grows width keyPrefix elems :
  forall j m m',
    sliceLoop rec width keyPrefix j elems m = Ok m' -> growsUnder keyPrefix m m'.
Proof.
  induction elems as [| elem elems IH]; intros j m m'; cbn [sliceLoop].
  - intros [= <-]. apply growsUnder_refl.
  - intros Hrun. apply bind_Ok in Hrun as (m1 & Hstep & Hrest).
    eapply growsUnder_trans; [| by eapply IH].
    case_bool_decide.
    + eapply growsUnder_weaken, rec_grows, Hstep.
    + eapply write_grows; [apply underPrefix_join | exact Hstep].
Qed.

Lemma mapLoop_grows prefix keys :
  forall m m', mapLoop rec prefix keys m = Ok m' -> growsUnder prefix m m'.
Proof.
  induction keys as [| [key value] keys IH]; intros m m'; cbn [mapLoop].
  - intros [= <-]. apply growsUnder_refl.
  - intros Hrun. apply bind_Ok in Hrun as (m1 & Hstep & Hrest).
    eapply growsUnder_trans; [| by eapply IH].
    destruct (KindOf (DerefPointers value));
      first [ eapply growsUnder_weaken, rec_grows, Hstep
            | eapply write_grows; [apply underPrefix_join | exact Hstep] ].
Qed.

Lemma flattenField_grows prefix field fieldVal m m' :
  flattenField rec prefix field fieldVal m = Ok m' -> growsUnder prefix m m'.
Proof.
  unfold flattenField, flattenSlice_with, flattenMap_with.
  destruct (negb (IsExported field)); [intros [= <-]; apply growsUnder_refl |].
  pose proof (underPrefix_join prefix (getMapKey field)) as Hkey.
  destruct fieldVal as [| | | | name str fs | elem [underlying |] | [dyn |]
                       | key elem entries | elem elems | elem elems];
    try (intros [= <-]; first [apply growsUnder_refl | by apply growsUnder_insert]);
    try (intros Hrun; by eapply write_grows).
  - destruct (isTimeType _ && negb _); [intros Hrun; by eapply write_grows |].
    destruct (shouldInline field); intros Hrun;
      [by apply rec_grows in Hrun | by apply rec_grows, growsUnder_weaken in Hrun].
  - destruct (KindOf underlying); try (intros Hrun; by eapply write_grows);
      try destruct (shouldInline field); intros Hrun;
      first [ by apply rec_grows in Hrun | by apply rec_grows, growsUnder_weaken in Hrun ].
  - case_bool_decide; [intros Hrun; by apply rec_grows in Hrun |].
    intros [= <-]. apply growsUnder_refl.
  - destruct entries; [intros [= <-]; by apply growsUnder_insert |].
    destruct (shouldInline field); intros Hrun;
      [by apply mapLoop_grows in Hrun | by apply mapLoop_grows, growsUnder_weaken in Hrun].
  - destruct elems; [intros [= <-]; by apply growsUnder_insert |].
    intros Hrun. by apply sliceLoop_grows, growsUnder_weaken in Hrun.
Qed.

Lemma fieldsLoop_grows prefix fs :
  forall m m', fieldsLoop rec prefix fs m = Ok m' -> growsUnder prefix m m'.
Proof.
  induction fs as [| [field fieldVal] fs IH]; intros m m'; cbn [fieldsLoop].
  - intros [= <-]. apply growsUnder_refl.
  - intros Hrun. apply bind_Ok in Hrun as (m1 & Hstep & Hrest).
    eapply growsUnder_trans; [by eapply flattenField_grows | by eapply IH].
Qed.

Lemma FlattenNestedStructs_body_grows item prefix m m' :
  FlattenNestedStructs_body rec item prefix m = Ok m' -> growsUnder prefix m m'.
Proof.
  unfold FlattenNestedStructs_body, flattenSlice_with, flattenMap_with.
  destruct (DerefPointers item); try discriminate;
    eauto using fieldsLoop_grows, mapLoop_grows, sliceLoop_grows.
Qed.

End FlattenerKeys.

Lemma FlattenNestedStructs_fuel_grows (n : nat) :
  forall item prefix m m',
    FlattenNestedStructs_fuel n item prefix m = Ok m' -> growsUnder prefix m m'.
Proof.
  induction n as [| n IH]; intros item prefix m m'; [discriminate |].
  cbn [FlattenNestedStructs_fuel]. by apply FlattenNestedStructs_body_grows.
Qed.

(** X11.  [FlattenNestedStructs] only adds to the field map, and only under
    its prefix: every key that was present stays present, and every new key
    is the prefix itself or starts with the prefix and a dot (any key when
    the prefix is empty).  All keys written for a field are therefore
    collected by the header that names the field. *)
Theorem X11_flattening_writes_under_its_prefix (item : value) (prefix : string)
        (fieldMap fieldMap' : gmap string string) :
  FlattenNestedStructs item prefix fieldMap = Ok fieldMap' ->
  (forall key, is_Some (fieldMap !! key) -> is_Some (fieldMap' !! key))
  /\ (forall key, is_Some (fieldMap' !! key) ->
        is_Some (fieldMap !! key) \/ prefix = "" \/ matchesHeader key prefix = true).
Proof. intros Hrun. by apply FlattenNestedStructs_fuel_grows in Hrun. Qed.

Lemma X11_flattening_prefix_witness :
  (forall key, is_Some ((∅ : gmap string string) !! key) ->
               is_Some ((<["p.created" := "2024-01-02 03:04:05 +0000 UTC"]> ∅
                          : gmap string string) !! key))
  /\ (forall key, is_Some ((<["p.created" := "2024-01-02 03:04:05 +0000 UTC"]> ∅
                             : gmap string string) !! key) ->
        is_Some ((∅ : gmap string string) !! key) \/ "p" = "" \/ matchesHeader key "p" = true).
Proof.
  apply (X11_flattening_writes_under_its_prefix event "p").
  vm_compute. reflexivity.
Defined.

(** ** Rows for supplied headers *)

Lemma placeholders_keys (headers all : list string) :
  forall m : gmap string string,
    (forall h, h ∈ headers -> h ∈ all) ->
    (forall key, is_Some (m !! key) -> existsb (matchesHeader key) all = true) ->
    forall key,
      is_Some (fold_left (fun (m : gmap string string) header =>
                            match m !! header with
                            | Some _ => m
                            | None => <[header := ""]> m
                            end) headers m !! key) ->
      existsb (matchesHeader key) all = true.
Proof.
  induction headers as [| h hs IH]; intros m Hsub Hm key; cbn [fold_left]; [apply Hm |].
  apply IH; [intros h' Hh'; apply Hsub; by right |].
  intros k. destruct (m !! h) eqn:E; [apply Hm |].
  destruct (decide (h = k)) as [<- | Hne].
  - intros _. apply existsb_exists. exists h.
    split; [apply list_elem_of_In, Hsub; by left | apply matchesHeader_refl].
  - rewrite lookup_insert_ne by done. apply Hm.
Qed.

Lemma placeholders_values (headers : list string) :
  forall (m : gmap string string) key value,
    fold_left (fun (m : gmap string string) header =>
                 match m !! header with
                 | Some _ => m
                 | None => <[header := ""]> m
                 end) headers m !! key = Some value ->
    m !! key = Some value \/ (value = "" /\ key ∈ headers).
Proof.
  induction headers as [| h hs IH]; intros m key value; cbn [fold_left]; [by left |].
  intros Hrun. apply IH in Hrun as [Hm | [-> Hin]]; [| right; split; [done | by right]].
  destruct (m !! h) eqn:E; [by left |].
  destruct (decide (h = key)) as [<- | Hne].
  - rewrite lookup_insert_eq in Hm. injection Hm as <-. right. split; [done | by left].
  - rewrite lookup_insert_ne in Hm by done. by left.
Qed.

(** After the pruning step every key is matched by a header, and a value is
    either the one of the flattened map or the empty placeholder of a
    header. *)
Lemma pruneToHeaders_spec (fieldMap : gmap string string) (headers : list string)
      (key : string) :
  (is_Some (pruneToHeaders fieldMap headers !! key) ->
   existsb (matchesHeader key) headers = true)
  /\ (forall value, pruneToHeaders fieldMap headers !! key = Some value ->
        fieldMap !! key = Some value \/ (value = "" /\ key ∈ headers)).
Proof.
  unfold pruneToHeaders.
  set (newMap := filter _ fieldMap).
  assert (Hkeys : forall k, is_Some (newMap !! k) -> existsb (matchesHeader k) headers = true).
  { intros k [v Hv]. apply map_lookup_filter_Some in Hv as [_ Hv].
    cbn [fst] in Hv. by apply Is_true_true in Hv. }
  assert (Hvals : forall k v, newMap !! k = Some v -> fieldMap !! k = Some v).
  { intros k v Hv. by apply map_lookup_filter_Some in Hv as [Hv _]. }
  destruct (size newMap <? length headers)%nat.
  - split.
    + by apply placeholders_keys.
    + intros value Hv. apply placeholders_values in Hv as [Hv | Hv]; auto.
  - split; auto.
Qed.

(** X12.  With caller-supplied headers and [Generate] unset, every row that
    [FlattenStructFields] returns is matched by one of the headers (nothing
    is returned as a leftover), its value is the one of the flattened map
    or, for a header that is not a key of the flattened map, the empty
    placeholder, and the caller's header list is replaced by the keys of
    the rows. *)
Theorem X12_supplied_headers_select_the_rows (item : value) (cfg : pkgConfig)
        (headers : list string) (rows : list (string * string))
        (newHeaders : option (list string)) :
  Generate cfg = false ->
  Headers cfg = Some headers ->
  FlattenStructFields item cfg = Ok (rows, newHeaders) ->
  newHeaders = Some (map fst rows)
  /\ exists flat,
       FlattenNestedStructs item "" ∅ = Ok flat
       /\ forall key value, (key, value) ∈ rows ->
            (exists header, header ∈ headers /\ matchesHeader key header = true)
            /\ (flat !! key = Some value \/ (value = "" /\ key ∈ headers)).
Proof.
  intros Hg Hh. unfold FlattenStructFields.
  destruct (negb (bool_decide _)); [discriminate |].
  rewrite Hg, Hh. cbn [andb negb]. cbn.
  destruct (FlattenNestedStructs item "" ∅) as [flat | | |] eqn:Hflat; try discriminate.
  cbn. intros [= <- <-]. split.
  - rewrite map_map. cbn [fst]. by rewrite map_id.
  - exists flat. split; [reflexivity |]. intros key value Hrow.
    apply (mapToSlice_rows_iff (pruneToHeaders flat headers) headers) in Hrow.
    destruct (pruneToHeaders_spec flat headers key) as [Hkeys Hvals]. split.
    + assert (Hm : existsb (matchesHeader key) headers = true) by (apply Hkeys; eauto).
      apply existsb_exists in Hm as (header & Hin & Hm).
      exists header. split; [by apply list_elem_of_In | exact Hm].
    + by apply Hvals.
Qed.

Lemma X12_supplied_headers_witness :
  Some ["a.00"; "a.01"] = Some (map fst [("a.00", "x"); ("a.01", "y")])
  /\ exists flat,
       FlattenNestedStructs twoItems "" ∅ = Ok flat
       /\ forall key value, (key, value) ∈ [("a.00", "x"); ("a.01", "y")] ->
            (exists header, header ∈ ["a"; "b"] /\ matchesHeader key header = true)
            /\ (flat !! key = Some value \/ (value = "" /\ key ∈ ["a"; "b"])).
Proof.
  apply (X12_supplied_headers_select_the_rows twoItems
           (WithHeaders (Some ["a"; "b"]) defaultConfig) ["a"; "b"]).
  - reflexivity.
  - reflexivity.
  - vm_compute. reflexivity.
Defined.

(** ** Flat records: generator, flattener and assembler together *)

Lemma structField_simple
      (rec : string -> value -> pkgConfig -> result (list string))
      (prefix : string) (cfg : pkgConfig) (field : StructField) (fieldVal : value) :
  simpleField (field, fieldVal) ->
  structField rec prefix cfg field fieldVal
  = Ok [joinPrefixKey prefix (json (Tag field))].
Proof.
  intros (_ & Htag & _ & Hdash & Hinline & Hkind). cbn [fst snd] in *.
  unfold structField. rewrite Htag, Hinline.
  destruct (String.eqb_spec (json (Tag field)) "-"); [done |].
  destruct fieldVal; cbn [KindOf] in Hkind; destruct Hkind as [H | [H | H]];
    try discriminate; cbn; by rewrite andb_false_r.
Qed.

Lemma structLoop_simple
      (rec : string -> value -> pkgConfig -> result (list string))
      (prefix : string) (cfg : pkgConfig) (fs : list (StructField * value)) :
  Forall simpleField fs ->
  forall fields,
    structLoop rec prefix cfg fs fields
    = Ok (fields ++ map (fun fv => joinPrefixKey prefix (fieldTag fv)) fs).
Proof.
  induction 1 as [| [field fieldVal] fs Hfield _ IH]; intros fields; cbn [structLoop map].
  - by rewrite app_nil_r.
  - rewrite structField_simple by exact Hfield. cbn.
    rewrite IH, <- app_assoc. reflexivity.
Qed.

Lemma getMapKey_simple (fv : StructField * value) :
  simpleField fv -> getMapKey (fst fv) = fieldTag fv.
Proof.
  intros (_ & Htag & Hne & Hdash & _). unfold getMapKey, fieldTag. rewrite Htag.
  destruct (String.eqb_spec (json (Tag (fst fv))) ""); [done |].
  destruct (String.eqb_spec (json (Tag (fst fv))) "-"); [done | reflexivity].
Qed.

Lemma fieldsLoop_simple
      (rec : value -> string -> gmap string string -> result (gmap string string))
      (prefix : string) (fs : list (StructField * value)) :
  Forall simpleField fs ->
  forall fieldMap,
    fieldsLoop rec prefix fs fieldMap
    = Ok (rowMap (map (fun fv => (joinPrefixKey prefix (fieldTag fv), Sprint (snd fv))) fs)
                 fieldMap).
Proof.
  induction 1 as [| [field fieldVal] fs Hfield _ IH]; intros fieldMap;
    cbn [fieldsLoop map]; [reflexivity |].
  pose proof (getMapKey_simple _ Hfield) as Hkey. cbn [fst] in Hkey.
  destruct Hfield as (Hexp & _ & _ & _ & _ & Hkind). cbn [fst snd] in *.
  unfold flattenField. rewrite Hexp, Hkey. cbn [negb].
  destruct fieldVal; cbn [KindOf] in Hkind; destruct Hkind as [H | [H | H]];
    try discriminate; cbn; apply IH.
Qed.

(** The assembler on headers that match no key but themselves. *)
Lemma mapToSlice_separate (fieldMap : gmap string string) (headers : list string) :
  NoDup headers ->
  (forall key header, key ∈ headers -> header ∈ headers ->
                      matchesHeader key header = true -> key = header) ->
  (forall key, is_Some (fieldMap !! key) <-> key ∈ headers) ->
  mapToSliceAndUpdateFields fieldMap headers
  = (map (fun key => (key, mapGet fieldMap key)) headers, headers).
Proof.
  intros Hnd Hsep Hkeys.
  assert (Hgroup : forall h, h ∈ headers -> headerGroup fieldMap h = [h]).
  { intros h Hh. unfold headerGroup, sortGroupKeys.
    rewrite (NoDup_constant
               (List.filter (fun key => matchesHeader key h) (mapKeys fieldMap)) h).
    - reflexivity.
    - apply filter_NoDup, mapKeys_NoDup.
    - intros x [Hx Hm]%filter_elem. apply mapKeys_elem, Hkeys in Hx. by apply Hsep.
    - apply filter_elem. split; [by apply mapKeys_elem, Hkeys | apply matchesHeader_refl]. }
  assert (Hleft : leftoverKeys fieldMap headers = []).
  { unfold leftoverKeys. rewrite filter_none; [reflexivity |].
    intros key Hkey. apply mapKeys_elem, Hkeys in Hkey.
    apply negb_false_iff, existsb_exists. exists key.
    split; [by apply list_elem_of_In | apply matchesHeader_refl]. }
  unfold mapToSliceAndUpdateFields.
  rewrite Hleft, app_nil_r, flat_map_singletons by exact Hgroup. reflexivity.
Qed.

(** X13.  For a record whose fields are exported scalars with plain json
    tags, the generator returns the tags in field order, the flattener
    stores each value under its tag, and, when the tags are distinct and
    none extends another by a dot, [FlattenStructFields] with [Generate]
    returns one row per field, in the declared order of the fields. *)
Theorem X13_flat_records_keep_field_order (name : string) (str : option string)
        (fs : list (StructField * value)) :
  Forall simpleField fs ->
  NoDup (map fieldTag fs) ->
  (forall key header, key ∈ map fieldTag fs -> header ∈ map fieldTag fs ->
                      matchesHeader key header = true -> key = header) ->
  GenerateFieldNames "" (VStruct name str fs) defaultConfig = Ok (map fieldTag fs)
  /\ FlattenNestedStructs (VStruct name str fs) "" ∅ = Ok (rowMap (map fieldRow fs) ∅)
  /\ FlattenStructFields (VStruct name str fs) (WithGenerate defaultConfig)
     = Ok (map fieldRow fs, None).
Proof.
  intros Hsimple Hnd Hsep.
  assert (Hjoin : forall (f : StructField * value -> string),
             map (fun fv => joinPrefixKey "" (f fv)) fs = map f fs)
    by (intros f; apply map_ext; intros; apply joinPrefixKey_empty_l).
  assert (Hgen : GenerateFieldNames "" (VStruct name str fs) defaultConfig
                 = Ok (map fieldTag fs)).
  { unfold GenerateFieldNames. destruct (height_pos (VStruct name str fs)) as [n ->].
    cbn [GenerateFieldNames_fuel]. unfold GenerateFieldNames_body. cbn [DerefPointers].
    rewrite structLoop_simple by exact Hsimple. cbn [app]. by rewrite Hjoin. }
  assert (Hflat : FlattenNestedStructs (VStruct name str fs) "" ∅
                  = Ok (rowMap (map fieldRow fs) ∅)).
  { unfold FlattenNestedStructs. destruct (height_pos (VStruct name str fs)) as [n ->].
    cbn [FlattenNestedStructs_fuel]. unfold FlattenNestedStructs_body. cbn [DerefPointers].
    rewrite fieldsLoop_simple by exact Hsimple. do 2 f_equal.
    apply map_ext. intros fv. unfold fieldRow. by rewrite joinPrefixKey_empty_l. }
  split; [exact Hgen |]. split; [exact Hflat |].
  set (flat := rowMap (map fieldRow fs) ∅) in *.
  assert (Hfst : (map fieldRow fs).*1 = map fieldTag fs)
    by (rewrite <- list_fmap_compose; reflexivity).
  assert (Hlookup : forall fv, fv ∈ fs -> flat !! fieldTag fv = Some (Sprint (snd fv))).
  { intros fv Hfv. apply rowMap_lookup; [by rewrite Hfst |].
    apply list_elem_of_fmap. by exists fv. }
  assert (Hkeys : forall key, is_Some (flat !! key) <-> key ∈ map fieldTag fs).
  { intros key. split.
    - intros [Hin | Hsome]%rowMap_keys; [by rewrite Hfst in Hin |].
      rewrite lookup_empty in Hsome. by destruct Hsome.
    - intros (fv & -> & Hfv)%list_elem_of_fmap. rewrite Hlookup by done. eauto. }
  unfold FlattenStructFields.
  cbn [DerefPointers KindOf Generate Headers WithGenerate defaultConfig andb negb].
  rewrite bool_decide_eq_true_2 by reflexivity. cbn [negb].
  rewrite Hgen, Hflat. unfold mbind, result_bind, bind. cbn [app negb].
  rewrite mapToSlice_separate by assumption.
  do 2 f_equal. rewrite map_map. apply map_ext_in. intros fv Hfv.
  apply list_elem_of_In in Hfv. unfold fieldRow, mapGet. by rewrite Hlookup.
Qed.

Lemma X13_flat_record_witness :
  GenerateFieldNames "" flatRecord defaultConfig = Ok ["id"; "name"; "active"]
  /\ FlattenNestedStructs flatRecord "" ∅
     = Ok (rowMap [("id", "7"); ("name", "Ann"); ("active", "true")] ∅)
  /\ FlattenStructFields flatRecord (WithGenerate defaultConfig)
     = Ok ([("id", "7"); ("name", "Ann"); ("active", "true")], None).
Proof.
  apply (X13_flat_records_keep_field_order "main.User" None
           [ (exportedField "ID" (jsonTag "id"), VInt 7);
             (exportedField "Name" (jsonTag "name"), VString "Ann");
             (exportedField "Active" (jsonTag "active"), VBool true) ]).
  - repeat apply Forall_cons_2; try apply Forall_nil_2;
      (repeat split; try discriminate; try reflexivity;
       first [by left | by (right; left) | by (right; right)]).
  - vm_compute. repeat constructor; set_solver.
  - intros key header Hk Hh.
    vm_compute in Hk, Hh.
    repeat (apply elem_of_cons in Hk as [-> | Hk]); try by apply not_elem_of_nil in Hk.
    all: repeat (apply elem_of_cons in Hh as [-> | Hh]); try by apply not_elem_of_nil in Hh.
    all: vm_compute; congruence.
Defined.

(** ** Colliding keys *)

Lemma fieldsLoop_app
      (rec : value -> string -> gmap string string -> result (gmap string string))
      (prefix : string) (fs1 fs2 : list (StructField * value)) :
  forall fieldMap,
    fieldsLoop rec prefix (fs1 ++ fs2) fieldMap
    = fieldsLoop rec prefix fs1 fieldMap ≫= fieldsLoop rec prefix fs2.
Proof.
  induction fs1 as [| [field fieldVal] fs1 IH]; intros fieldMap; [reflexivity |].
  cbn [app fieldsLoop].
  destruct (flattenField rec prefix field fieldVal fieldMap); cbn; auto.
Qed.

(** X14.  The flattener overwrites: the last field of a struct, when it is
    an exported scalar or an exported nil pointer, decides what the map
    holds under its key, whatever an earlier field (or the caller) had
    stored under the same key.  A scalar is stored as printed by [fmt], a
    nil pointer as the text [<nil>]. *)
Theorem X14_last_field_wins (name : string) (str : option string)
        (fs : list (StructField * value)) (field : StructField) (fieldVal : value)
        (prefix : string) (fieldMap fieldMap' : gmap string string) :
  IsExported field = true ->
  FlattenNestedStructs (VStruct name str (fs ++ [(field, fieldVal)])) prefix fieldMap
  = Ok fieldMap' ->
  (KindOf fieldVal = Bool \/ KindOf fieldVal = Int \/ KindOf fieldVal = String_ ->
   fieldMap' !! joinPrefixKey prefix (getMapKey field) = Some (Sprint fieldVal))
  /\ (forall elem, fieldVal = VPtr elem None ->
        fieldMap' !! joinPrefixKey prefix (getMapKey field) = Some "<nil>").
Proof.
  intros Hexp. unfold FlattenNestedStructs.
  destruct (height_pos (VStruct name str (fs ++ [(field, fieldVal)]))) as [n ->].
  cbn [FlattenNestedStructs_fuel]. unfold FlattenNestedStructs_body. cbn [DerefPointers].
  rewrite fieldsLoop_app. intros Hrun.
  apply bind_Ok in Hrun as (m1 & _ & Hlast).
  cbn [fieldsLoop] in Hlast. apply bind_Ok in Hlast as (m2 & Hfield & [= <-]).
  unfold flattenField in Hfield. rewrite Hexp in Hfield. cbn [negb] in Hfield.
  split.
  - intros Hkind.
    destruct fieldVal; cbn [KindOf] in Hkind; destruct Hkind as [H | [H | H]];
      try discriminate; cbn in Hfield; injection Hfield as <-; apply lookup_insert_eq.
  - intros elem ->. injection Hfield as <-. apply lookup_insert_eq.
Qed.

Lemma X14_last_field_wins_witness :
  (KindOf (VString "second") = Bool \/ KindOf (VString "second") = Int
   \/ KindOf (VString "second") = String_ ->
   (<["k" := "second"]> ∅ : gmap string string)
     !! joinPrefixKey "" (getMapKey (exportedField "B" (jsonTag "k")))
   = Some (Sprint (VString "second")))
  /\ (forall elem, VString "second" = VPtr elem None ->
        (<["k" := "second"]> ∅ : gmap string string)
          !! joinPrefixKey "" (getMapKey (exportedField "B" (jsonTag "k")))
        = Some "<nil>").
Proof.
  apply (X14_last_field_wins "main.Twice" None
           [ (exportedField "A" (jsonTag "k"), VString "first") ]
           (exportedField "B" (jsonTag "k")) (VString "second") "" ∅).
  - reflexivity.
  - vm_compute. reflexivity.
Defined.

(** ** When every header gets a row *)

Lemma placeholders_cover (headers : list string) :
  forall m : gmap string string,
    let result :=
      fold_left (fun (m : gmap string string) header =>
                   match m !! header with
                   | Some _ => m
                   | None => <[header := ""]> m
                   end) headers m in
    (forall key, is_Some (m !! key) -> is_Some (result !! key))
    /\ (forall h, h ∈ headers -> is_Some (result !! h)).
Proof.
  induction headers as [| h hs IH]; intros m; cbn [fold_left].
  - split; [auto |]. intros h Hh. by apply not_elem_of_nil in Hh.
  - set (m1 := match m !! h with Some _ => m | None => <[h := ""]> m end).
    destruct (IH m1) as [Hkeep Hcover].
    assert (Hm1 : forall key, is_Some (m !! key) -> is_Some (m1 !! key)).
    { intros key Hk. unfold m1. destruct (m !! h) eqn:E; [exact Hk |].
      destruct (decide (h = key)) as [-> | Hne];
        [rewrite lookup_insert_eq; eauto | by rewrite lookup_insert_ne]. }
    assert (Hh : is_Some (m1 !! h)).
    { unfold m1. destruct (m !! h) eqn:E; [rewrite E; eauto |].
      rewrite lookup_insert_eq. eauto. }
    split; [auto |].
    intros h' [-> | Hh']%elem_of_cons; auto.
Qed.

Lemma placeholders_keep_value (headers : list string) :
  forall (m : gmap string string) key value,
    m !! key = Some value ->
    fold_left (fun (m : gmap string string) header =>
                 match m !! header with
                 | Some _ => m
                 | None => <[header := ""]> m
                 end) headers m !! key = Some value.
Proof.
  induction headers as [| h hs IH]; intros m key value Hm; [exact Hm |].
  cbn [fold_left]. apply IH. destruct (m !! h) eqn:E; [exact Hm |].
  rewrite lookup_insert_ne; [exact Hm |]. intros ->. congruence.
Qed.

(** X15.  When fewer keys of the flattened map match a header than there
    are headers, [FlattenStructFields] (with supplied headers, [Generate]
    unset) returns for every header a row whose key is that header; and in
    every case it returns every entry of the flattened map that a header
    matches, with its value. *)
Theorem X15_rows_for_supplied_headers (item : value) (cfg : pkgConfig)
        (headers : list string) (flat : gmap string string) :
  KindOf (DerefPointers item) = Struct ->
  Generate cfg = false ->
  Headers cfg = Some headers ->
  FlattenNestedStructs item "" ∅ = Ok flat ->
  exists rows newHeaders,
    FlattenStructFields item cfg = Ok (rows, newHeaders)
    /\ (forall key value, flat !! key = Some value ->
          existsb (matchesHeader key) headers = true -> (key, value) ∈ rows)
    /\ ((size (filter (fun kv => Is_true (existsb (matchesHeader (fst kv)) headers)) flat)
         < length headers)%nat ->
        forall header, header ∈ headers -> exists value, (header, value) ∈ rows).
Proof.
  intros Hk Hg Hh Hflat. unfold FlattenStructFields.
  rewrite Hk, Hg, Hh, Hflat. rewrite bool_decide_eq_true_2 by reflexivity.
  cbn [andb negb]. cbn.
  eexists _, _. split; [reflexivity |].
  change (map _ (flat_map _ headers ++ _))
    with (fst (mapToSliceAndUpdateFields (pruneToHeaders flat headers) headers)).
  split.
  - intros key value Hkv Hm. apply mapToSlice_rows_iff.
    unfold pruneToHeaders.
    set (newMap := filter _ flat).
    assert (Hnew : newMap !! key = Some value)
      by (apply map_lookup_filter_Some; split; [exact Hkv | by apply Is_true_true]).
    destruct (size newMap <? length headers)%nat; [| exact Hnew].
    by apply placeholders_keep_value.
  - intros Hguard header Hheader.
    assert (Hsome : is_Some (pruneToHeaders flat headers !! header)).
    { unfold pruneToHeaders. apply Nat.ltb_lt in Hguard. rewrite Hguard.
      by apply placeholders_cover. }
    destruct Hsome as [value Hvalue]. exists value. by apply mapToSlice_rows_iff.
Qed.

Lemma X15_rows_for_supplied_headers_witness :
  exists rows newHeaders,
    FlattenStructFields ann (WithHeaders (Some ["name"; "tags"; "zz"; "yy"]) defaultConfig)
    = Ok (rows, newHeaders)
    /\ (forall key value,
          (<["name" := "Ann"]> (<["tags.00" := "x"]> (<["tags.01" := "y"]> ∅))
             : gmap string string) !! key = Some value ->
          existsb (matchesHeader key) ["name"; "tags"; "zz"; "yy"] = true ->
          (key, value) ∈ rows)
    /\ ((size (filter (fun kv => Is_true (existsb (matchesHeader (fst kv))
                                                  ["name"; "tags"; "zz"; "yy"]))
                      (<["name" := "Ann"]> (<["tags.00" := "x"]> (<["tags.01" := "y"]> ∅))
                         : gmap string string))
         < length ["name"; "tags"; "zz"; "yy"])%nat ->
        forall header, header ∈ ["name"; "tags"; "zz"; "yy"] ->
                       exists value, (header, value) ∈ rows).
Proof.
  apply (X15_rows_for_supplied_headers ann
           (WithHeaders (Some ["name"; "tags"; "zz"; "yy"]) defaultConfig));
    vm_compute; reflexivity.
Defined.

(** ** When [TableToStructs] fails *)

Lemma structOfChecks_complete (names : list string) :
  forall seen,
    Forall (fun name => isValidFieldName name = true /\ looksUnexported name = false) names ->
    NoDup names ->
    (forall name, name ∈ names -> name ∉ seen) ->
    structOfChecks names seen = Ok tt.
Proof.
  induction names as [| name names IH]; intros seen Hvalid Hnd Hfresh; [reflexivity |].
  apply Forall_cons in Hvalid as [[Hv Hu] Hvalid].
  apply NoDup_cons in Hnd as [Hname Hnd].
  cbn [structOfChecks]. rewrite Hv, Hu. cbn [negb].
  rewrite bool_decide_eq_false_2 by (apply Hfresh; left). cbn [andb].
  apply IH; auto. intros n Hn [-> | Hseen]%elem_of_cons; [done |].
  by apply (Hfresh n); [right |].
Qed.


Lemma populate_good (fields : list StructField) (rows : list (list string)) :
  forall results,
    Forall (fun row => length row = length fields) rows ->
    populate fields rows results
    = Ok (results ++ map (fun row => VStruct (structTypeString fields) None
                                             (combine fields (map VString row))) rows).
Proof.
  induction rows as [| row rows IH]; intros results Hrows; cbn [populate map].
  - by rewrite app_nil_r.
  - apply Forall_cons in Hrows as [Hrow Hrows].
    rewrite Hrow, Nat.eqb_refl. cbn [negb]. rewrite IH by exact Hrows.
    by rewrite <- app_assoc.
Qed.

Lemma populate_bad (fields : list StructField) (rows : list (list string)) :
  forall results,
    Exists (fun row => length row <> length fields) rows ->
    populate fields rows results = Err "data row does not match headers length".
Proof.
  induction rows as [| row rows IH]; intros results Hrows; [by apply Exists_nil in Hrows |].
  cbn [populate]. destruct (Nat.eqb_spec (length row) (length fields)) as [Heq | Hne];
    cbn [negb]; [| reflexivity].
  apply Exists_cons in Hrows as [Hrow | Hrows]; [done | by apply IH].
Qed.

(** X16.  For headers whose sanitized names are valid, exported and
    pairwise distinct, [TableToStructs] succeeds exactly when every data row
    has as many cells as there are headers: it then returns one record per
    row, in order; a single row of another length makes the whole call
    return the length error, with no record for the rows before it. *)
Theorem X16_TableToStructs_row_lengths (headers : list string) (rows : list (list string)) :
  Forall (fun header => isValidFieldName (safeHeader header) = true
                        /\ looksUnexported (safeHeader header) = false) headers ->
  NoDup (map safeHeader headers) ->
  (Forall (fun row => length row = length headers) rows ->
   TableToStructs (headers :: rows)
   = Ok (map (fun row => VStruct (structTypeString (map headerField headers)) None
                                 (combine (map headerField headers) (map VString row)))
             rows))
  /\ (Exists (fun row => length row <> length headers) rows ->
      TableToStructs (headers :: rows) = Err "data row does not match headers length").
Proof.
  intros Hvalid Hnd. unfold TableToStructs.
  rewrite map_map. cbn [Name headerField].
  rewrite structOfChecks_complete;
    [| by apply Forall_fmap | exact Hnd | intros ? _; apply not_elem_of_nil].
  cbn. split; intros Hrows.
  - rewrite populate_good; [reflexivity |].
    eapply Forall_impl; [exact Hrows |]. intros row Hrow. by rewrite length_map.
  - apply populate_bad. eapply Exists_impl; [exact Hrows |].
    intros row Hrow. by rewrite length_map.
Qed.

Lemma X16_TableToStructs_row_lengths_witness :
  (Forall (fun row => length row = length ["Full Name"; "Age"]) [["Ann"; "30"]] ->
   TableToStructs (["Full Name"; "Age"] :: [["Ann"; "30"]])
   = Ok (map (fun row => VStruct (structTypeString (map headerField ["Full Name"; "Age"])) None
                                 (combine (map headerField ["Full Name"; "Age"])
                                          (map VString row)))
             [["Ann"; "30"]]))
  /\ (Exists (fun row => length row <> length ["Full Name"; "Age"]) [["Ann"; "30"]] ->
      TableToStructs (["Full Name"; "Age"] :: [["Ann"; "30"]])
      = Err "data row does not match headers length").
Proof.
  apply (X16_TableToStructs_row_lengths ["Full Name"; "Age"] [["Ann"; "30"]]).
  - repeat constructor.
  - vm_compute. repeat constructor; set_solver.
Defined.



(** ** Index segments sort as numbers *)

Lemma ascii_compare_lt (c d : ascii) :
  (nat_of_ascii c < nat_of_ascii d)%nat -> Ascii.compare c d = Lt.
Proof.
  intros H. unfold Ascii.compare, nat_of_ascii in *.
  apply N.compare_lt_iff. lia.
Qed.

Lemma ascii_compare_refl (c : ascii) : Ascii.compare c c = Eq.
Proof. apply N.compare_refl. Qed.

Lemma nat_of_ascii_inj (c d : ascii) : nat_of_ascii c = nat_of_ascii d -> c = d.
Proof.
  intros H. rewrite <- (ascii_nat_embedding c), <- (ascii_nat_embedding d). by rewrite H.
Qed.

Lemma is_digit_range (c : ascii) :
  GoStrings.is_digit c = true -> (48 <= nat_of_ascii c <= 57)%nat.
Proof.
  unfold GoStrings.is_digit, GoStrings.code. intros H.
  apply andb_true_iff in H as [H1 H2]. apply Nat.leb_le in H1, H2. lia.
Qed.

(** The value of a run of digits, whatever the accumulator it starts from. *)
Lemma parse_digits_shape (s : string) :
  forall a x, GoStrings.parse_digits s a = Some x ->
    exists v, (0 <= v < 10 ^ Z.of_nat (String.length s))%Z
              /\ forall a', GoStrings.parse_digits s a'
                            = Some (a' * 10 ^ Z.of_nat (String.length s) + v)%Z.
Proof.
  induction s as [| c s IH]; intros a x; cbn [GoStrings.parse_digits String.length].
  - intros _. exists 0%Z. split; [cbn; lia |]. intros a'. f_equal. cbn. lia.
  - destruct (GoStrings.is_digit c) eqn:Ed; [| discriminate].
    intros Hx. destruct (IH _ _ Hx) as (v & Hv & Hall).
    pose proof (is_digit_range c Ed) as Hc. unfold GoStrings.code.
    set (d := Z.of_nat (nat_of_ascii c - 48)).
    assert (Hd : (0 <= d <= 9)%Z) by (unfold d; lia).
    rewrite Nat2Z.inj_succ, Z.pow_succ_r by lia.
    exists (d * 10 ^ Z.of_nat (String.length s) + v)%Z. split; [nia |].
    intros a'. rewrite Hall. f_equal. lia.
Qed.

(** Two runs of digits of the same length compare as their values do. *)
Lemma digits_compare (s : string) :
  forall t x y,
    String.length s = String.length t ->
    GoStrings.parse_digits s 0 = Some x ->
    GoStrings.parse_digits t 0 = Some y ->
    (x < y)%Z ->
    String.ltb s t = true.
Proof.
  induction s as [| c s IH]; intros [| d t] x y Hlen Hx Hy Hlt; try discriminate.
  - cbn in Hx, Hy. injection Hx as <-. injection Hy as <-. lia.
  - cbn [String.length] in Hlen. injection Hlen as Hlen.
    cbn [GoStrings.parse_digits] in Hx, Hy.
    destruct (GoStrings.is_digit c) eqn:Ec; [| discriminate].
    destruct (GoStrings.is_digit d) eqn:Ed; [| discriminate].
    pose proof (is_digit_range c Ec) as Hc. pose proof (is_digit_range d Ed) as Hd.
    unfold GoStrings.code in Hx, Hy.
    destruct (parse_digits_shape _ _ _ Hx) as (v & Hv & Hsv).
    destruct (parse_digits_shape _ _ _ Hy) as (w & Hw & Htw).
    rewrite Hsv in Hx. rewrite Htw in Hy. injection Hx as <-. injection Hy as <-.
    rewrite <- Hlen in *.
    unfold String.ltb. cbn [String.compare].
    destruct (lt_eq_lt_dec (nat_of_ascii c) (nat_of_ascii d)) as [[Hcd | Hcd] | Hcd].
    + by rewrite ascii_compare_lt.
    + apply nat_of_ascii_inj in Hcd as ->. rewrite ascii_compare_refl.
      assert (Hs0 : GoStrings.parse_digits s 0 = Some v)
        by (rewrite (Hsv 0%Z); f_equal; lia).
      assert (Ht0 : GoStrings.parse_digits t 0 = Some w)
        by (rewrite (Htw 0%Z); f_equal; lia).
      apply (IH t v w Hlen Hs0 Ht0). lia.
    + exfalso. nia.
Qed.

Lemma ltb_app_l (p s t : string) : String.ltb (p +:+ s) (p +:+ t) = String.ltb s t.
Proof.
  unfold String.ltb. induction p as [| c p IH]; [reflexivity |].
  rewrite !string_app_cons. cbn [String.compare]. by rewrite ascii_compare_refl.
Qed.

Lemma Sprintf_0d_digits (width j : nat) :
  GoStrings.parse_digits (GoStrings.Sprintf_0d width j) 0 = Some (Z.of_nat j).
Proof.
  pose proof (DigitFacts.Sprintf_0d_parse width j) as H.
  unfold GoStrings.parse_unsigned in H.
  destruct (GoStrings.Sprintf_0d width j); [discriminate | exact H].
Qed.

(** X18.  In a sequence of length [len] the keys of the elements sort as
    text in the order of their indices: for [i < j < len] the key of element
    [i] is lexicographically less than the key of element [j], under any
    prefix.  This is what the zero padding is for: the leftover rows, which
    are sorted as text, list the elements of a sequence in index order. *)
Theorem X18_index_keys_sort_in_index_order (len i j : nat) (prefix : string) :
  (i < j)%nat -> (j < len)%nat ->
  String.ltb (joinPrefixKey prefix (GoStrings.Sprintf_0d (indexWidth len) i))
             (joinPrefixKey prefix (GoStrings.Sprintf_0d (indexWidth len) j))
  = true.
Proof.
  intros Hij Hj.
  assert (Hlt : String.ltb (GoStrings.Sprintf_0d (indexWidth len) i)
                           (GoStrings.Sprintf_0d (indexWidth len) j) = true).
  { apply (digits_compare _ _ (Z.of_nat i) (Z.of_nat j)).
    - rewrite !DigitFacts.Sprintf_0d_length; auto using DigitFacts.index_fits.
      apply DigitFacts.index_fits. lia.
    - apply Sprintf_0d_digits.
    - apply Sprintf_0d_digits.
    - lia. }
  destruct (decide (prefix = "")) as [-> | Hp]; [by rewrite !joinPrefixKey_empty_l |].
  rewrite !joinPrefixKey_nonempty by auto using DigitFacts.Sprintf_0d_nonempty.
  by rewrite !ltb_app_l.
Qed.

Lemma X18_index_keys_witness :
  String.ltb (joinPrefixKey "items" (GoStrings.Sprintf_0d (indexWidth 11) 9))
             (joinPrefixKey "items" (GoStrings.Sprintf_0d (indexWidth 11) 10))
  = true.
Proof. apply X18_index_keys_sort_in_index_order; lia. Defined.

(** ** Pagination links *)

Lemma HasNextPage_flag (links : list string) :
  forall p, fst (Requests.HasNextPage p links) = true
            <-> Exists (fun link => GoStrings.Contains link Requests.relNext = true) links.
Proof.
  induction links as [| link links IH]; intros p; cbn [Requests.HasNextPage].
  - split; [discriminate | intros H; by apply Exists_nil in H].
  - destruct (GoStrings.Contains link Requests.relNext) eqn:E.
    + split; [intros _; by left | reflexivity].
    + rewrite IH, Exists_cons. split; [tauto |]. intros [H | H]; [congruence | exact H].
Qed.

Lemma HasNextPage_untouched (links : list string) :
  forall p,
    Requests.NextPageToken (snd (Requests.HasNextPage p links)) = Requests.NextPageToken p
    /\ Requests.Paged (snd (Requests.HasNextPage p links)) = Requests.Paged p
    /\ (fst (Requests.HasNextPage p links) = false ->
        Requests.NextPageLink (snd (Requests.HasNextPage p links)) = Requests.NextPageLink p).
Proof.
  induction links as [| link links IH]; intros p; cbn [Requests.HasNextPage]; [done |].
  destruct (GoStrings.Contains link Requests.relNext).
  - cbn. destruct (GoStrings.Contains link Requests.relSelf); cbn; repeat split; discriminate.
  - destruct (IH (if GoStrings.Contains link Requests.relSelf
                  then Requests.setSelf p (Requests.rawLinkOf link) else p))
      as (Ht & Hp & Hn).
    destruct (GoStrings.Contains link Requests.relSelf); cbn in *; auto.
Qed.

Lemma HasNextPage_first_next (pre : list string) :
  forall p link post,
    Forall (fun l => GoStrings.Contains l Requests.relNext = false) pre ->
    GoStrings.Contains link Requests.relNext = true ->
    Requests.HasNextPage p (pre ++ link :: post) = Requests.HasNextPage p (pre ++ [link])
    /\ Requests.NextPageLink (snd (Requests.HasNextPage p (pre ++ link :: post)))
       = Requests.rawLinkOf link.
Proof.
  induction pre as [| l pre IH]; intros p link post Hpre Hlink; cbn [app Requests.HasNextPage].
  - rewrite Hlink. split; reflexivity.
  - apply Forall_cons in Hpre as [Hl Hpre]. rewrite Hl. by apply IH.
Qed.

(** X19.  [HasNextPage] reports a next page exactly when one of the links
    carries the marker [rel="next"].  It then stores the target of the first
    such link, without its angle brackets and parameters, and never looks
    at the links after it; when it reports none, the stored next link is
    left as it was.  The page token and the paged flag are never touched. *)
Theorem X19_HasNextPage_takes_the_first_next_link (p : Requests.Paginator)
        (links : list string) :
  (fst (Requests.HasNextPage p links) = true
   <-> Exists (fun link => GoStrings.Contains link Requests.relNext = true) links)
  /\ Requests.NextPageToken (snd (Requests.HasNextPage p links)) = Requests.NextPageToken p
  /\ Requests.Paged (snd (Requests.HasNextPage p links)) = Requests.Paged p
  /\ (fst (Requests.HasNextPage p links) = false ->
      Requests.NextPageLink (snd (Requests.HasNextPage p links)) = Requests.NextPageLink p)
  /\ (forall pre link post,
        links = pre ++ link :: post ->
        Forall (fun l => GoStrings.Contains l Requests.relNext = false) pre ->
        GoStrings.Contains link Requests.relNext = true ->
        Requests.HasNextPage p links = Requests.HasNextPage p (pre ++ [link])
        /\ Requests.NextPageLink (snd (Requests.HasNextPage p links))
           = Requests.rawLinkOf link).
Proof.
  split; [apply HasNextPage_flag |].
  destruct (HasNextPage_untouched links p) as (Ht & Hp & Hn).
  repeat split; auto; subst links; by apply HasNextPage_first_next.
Qed.

(** The links of a typical response: the call stores the target of the
    [next] link. *)
Example HasNextPage_example :
  Requests.HasNextPage
    {| Requests.Self := ""; Requests.NextPageLink := "";
       Requests.NextPageToken := "t"; Requests.Paged := true |}
    [ Requests.linkHeader "https://api.test/items?page=1" "self";
      Requests.linkHeader "https://api.test/items?page=2" "next";
      Requests.linkHeader "https://api.test/items?page=9" "last" ]
  = (true,
     {| Requests.Self := "https://api.test/items?page=1";
        Requests.NextPageLink := "https://api.test/items?page=2";
        Requests.NextPageToken := "t"; Requests.Paged := true |}).
Proof. vm_compute. reflexivity. Qed.

(** ** Structs that are flattened in place *)




(** X21.  An interface field that is nil, or that holds anything but a
    struct (a string, a number, a pointer to a struct), leaves no trace in
    the flattened map: the result is that of the struct without the
    field. *)
Theorem X21_other_interface_fields_are_dropped
        (name : string) (str : option string) (fs1 fs2 : list (StructField * value))
        (field : StructField) (dyn : option value) (prefix : string)
        (fieldMap : gmap string string) :
  (forall elem, dyn = Some elem -> KindOf elem <> Struct) ->
  FlattenNestedStructs (VStruct name str (fs1 ++ (field, VIface dyn) :: fs2)) prefix fieldMap
  = FlattenNestedStructs (VStruct name str (fs1 ++ fs2)) prefix fieldMap.
Proof.
  intros Hdyn.
  set (outer := VStruct name str (fs1 ++ (field, VIface dyn) :: fs2)).
  set (rest := VStruct name str (fs1 ++ fs2)).
  set (n := Nat.max (height outer) (height rest)).
  rewrite <- (FlattenNestedStructs_fuel_enough (S n) outer) by lia.
  rewrite <- (FlattenNestedStructs_fuel_enough (S n) rest) by lia.
  clearbody n. subst outer rest. cbn [FlattenNestedStructs_fuel].
  unfold FlattenNestedStructs_body. cbn [DerefPointers].
  rewrite !fieldsLoop_app.
  destruct (fieldsLoop (FlattenNestedStructs_fuel n) prefix fs1 fieldMap) as [m1 | | |];
    cbn -[flattenField]; try reflexivity.
  assert (Hskip : flattenField (FlattenNestedStructs_fuel n) prefix field (VIface dyn) m1
                  = Ok m1).
  { unfold flattenField. destruct (IsExported field); cbn [negb]; [| reflexivity].
    destruct dyn as [elem |]; [| reflexivity].
    by rewrite bool_decide_eq_false_2 by by apply Hdyn. }
  by rewrite Hskip.
Qed.

Lemma X21_interface_dropped_witness :
  FlattenNestedStructs
    (VStruct "main.Order" None
       ([ (exportedField "ID" (jsonTag "id"), VInt 7) ]
        ++ (exportedField "Payload" (jsonTag "payload"), VIface (Some (VString "text")))
        :: []))
    "" ∅
  = FlattenNestedStructs
      (VStruct "main.Order" None ([ (exportedField "ID" (jsonTag "id"), VInt 7) ] ++ []))
      "" ∅.
Proof.
  apply (X21_other_interface_fields_are_dropped "main.Order" None
           [ (exportedField "ID" (jsonTag "id"), VInt 7) ] []
           (exportedField "Payload" (jsonTag "payload")) (Some (VString "text"))).
  intros elem [= <-]. discriminate.
Defined.
